(** * IntelligentAgent: time-bounded alpha-beta search for 2048

    A shallow embedding of [src/IntelligentAgent.py].

    - Python integers are [Z]; list indices and depths, which the code only
      ever produces from [range], [len] and a counter started at 1, are [nat].
    - Python floats are modelled by exact rationals extended with the two
      infinities the code names ([float('-inf')], [float('inf')]): rounding,
      overflow and NaN are outside the model.
    - Exceptions are values of [exn]; fallible pure code lives in [result],
      stateful code in the monad [M] over a store of Grid objects and a clock.
    - The Grid class is a collaborator whose code is not part of the agent:
      its read-only queries are section variables. *)

From Stdlib Require Import ZArith QArith Lia Lqa Permutation.
From stdpp Require Import base list sorting.

Open Scope Z_scope.

(** ** Exceptions and fallible pure code *)

Inductive exn : Type :=
| TimeoutError
| IndexError
| ValueError
| DanglingReference.

Inductive result (A : Type) : Type :=
| Ok (a : A)
| Raise (e : exn).
Arguments Ok {A} a.
Arguments Raise {A} e.

#[global] Instance result_ret : MRet result := fun _ a => Ok a.
#[global] Instance result_bind : MBind result := fun _ _ f m =>
  match m with
  | Ok a => f a
  | Raise e => Raise e
  end.

(** [for a in l: s = body(a, s)] with an accumulator. *)
Fixpoint for_in {A S : Type} (l : list A) (body : A -> S -> result S) (s : S)
  : result S :=
  match l with
  | [] => Ok s
  | a :: l' => s' ← body a s; for_in l' body s'
  end.

(** [l[i]] for an index that is not negative. *)
Definition index {A : Type} (l : list A) (i : nat) : result A :=
  match l !! i with
  | Some a => Ok a
  | None => Raise IndexError
  end.

(** [range(n)] *)
Definition range (n : nat) : list nat := seq 0 n.

(** ** Floats *)

Inductive pyfloat : Type :=
| NegInf
| Fin (q : Q)
| PosInf.

(** [a < b] *)
Definition flt (a b : pyfloat) : bool :=
  match a, b with
  | NegInf, NegInf => false
  | NegInf, _ => true
  | Fin _, NegInf => false
  | Fin p, Fin q => negb (Qle_bool q p)
  | Fin _, PosInf => true
  | PosInf, _ => false
  end.

(** [a <= b] *)
Definition fle (a b : pyfloat) : bool :=
  match a, b with
  | NegInf, _ => true
  | Fin _, NegInf => false
  | Fin p, Fin q => Qle_bool p q
  | Fin _, PosInf => true
  | PosInf, PosInf => true
  | PosInf, _ => false
  end.

(** [max(a, b)]: the first argument is kept unless the second is greater. *)
Definition fmax (a b : pyfloat) : pyfloat := if flt a b then b else a.

(** [min(a, b)]: the first argument is kept unless the second is smaller. *)
Definition fmin (a b : pyfloat) : pyfloat := if flt b a then b else a.

(** ** Data model *)

Inductive Move : Type := UP | DOWN | LEFT | RIGHT.

Definition Cell : Type := nat * nat.

Record Grid : Type := mkGrid { size : nat; map : list (list Z) }.

(** [grid.map[x][y]] *)
Definition cellValue (grid : Grid) (x y : nat) : result Z :=
  row ← index (map grid) x; index row y.

(** [grid.map[x][y] = value], as the board the object holds afterwards. *)
Definition setCellValue (grid : Grid) (cell : Cell) (value : Z) : result Grid :=
  let '(x, y) := cell in
  row ← index (map grid) x;
  _ ← index row y;
  Ok (mkGrid (size grid) (<[x := <[y := value]> row]> (map grid))).

(** ** Class constants *)

Definition playerMoveTimeLimit : Q := 0.2.

Definition possibleTileProbabilities : list (Z * Q) := [(2, 0.9%Q); (4, 0.1%Q)].

Definition snakeShapedWeights : list (list Z) :=
  [ [4^15; 4^14; 4^13; 4^12];
    [4^8;  4^9;  4^10; 4^11];
    [4^7;  4^6;  4^5;  4^4];
    [4^0;  4^1;  4^2;  4^3] ].

Definition snakeWeight : Q := 0.15966252220214197.
Definition smoothnessWeight : Q := 2.3089382562214906.
Definition emptyCellsWeight : Q := 2.410254660260118.
Definition maxInCornerWeight : Q := 6.832635188254583.

(** ** Heuristics that read only the map *)

Definition calcSnakeAdherence (grid : Grid) : result Z :=
  for_in (range (size grid)) (fun x adherenceScore =>
    for_in (range (size grid)) (fun y adherenceScore =>
      v ← cellValue grid x y;
      row ← index snakeShapedWeights x;
      w ← index row y;
      Ok (adherenceScore + v * w)) adherenceScore) 0.

Definition calcSmoothness (grid : Grid) : result Z :=
  for_in (range (size grid)) (fun x smoothnessScore =>
    for_in (range (size grid)) (fun y smoothnessScore =>
      current ← cellValue grid x y;
      smoothnessScore ←
        (if (x + 1 <? size grid)%nat
         then v ← cellValue grid (x + 1) y;
              Ok (smoothnessScore - Z.abs (current - v))
         else Ok smoothnessScore);
      if (y + 1 <? size grid)%nat
      then v ← cellValue grid x (y + 1);
           Ok (smoothnessScore - Z.abs (current - v))
      else Ok smoothnessScore) smoothnessScore) 0.

(** [max(iterable)] over integers; an empty iterable is a [ValueError]. *)
Definition pymax (l : list Z) : result Z :=
  match l with
  | [] => Raise ValueError
  | x :: l' => Ok (fold_left Z.max l' x)
  end.

Definition checkMaxTileInCorner (grid : Grid) : result Z :=
  maxTile ← pymax (concat (map grid));
  topLeftTile ← cellValue grid 0 0;
  if topLeftTile =? maxTile
  then Ok maxTile
  else Ok (- Z.abs (maxTile - topLeftTile)).

(** [getCellSnakeImportance]: the grid argument is not used, so it may be a
    Grid object or the board it holds. The cells are those the agent passes,
    the ones of [getAvailableCells], whose coordinates are not negative. *)
Definition getCellSnakeImportance {G : Type} (grid : G) (cell : Cell)
  : result Z :=
  let '(x, y) := cell in
  row ← index snakeShapedWeights x; index row y.

(** [l[i]] for any integer index: a negative index counts from the end of the
    list. *)
Definition index_any {A : Type} (l : list A) (i : Z) : result A :=
  if 0 <=? i then index l (Z.to_nat i)
  else if 0 <=? Z.of_nat (length l) + i
       then index l (Z.to_nat (Z.of_nat (length l) + i))
       else Raise IndexError.

(** [getCellSnakeImportance] called with any two integers as the cell. *)
Definition getCellSnakeImportance_any {G : Type} (grid : G) (cell : Z * Z)
  : result Z :=
  let '(x, y) := cell in
  row ← index_any snakeShapedWeights x; index_any row y.

(** ** [sorted(..., key=..., reverse=True)]

    The keys are computed once per element, in order; the sort is stable also
    with [reverse=True], so elements with equal keys keep their input order.
    Any stable sort returns the same list; insertion sort is used here. *)

Fixpoint decorate {A : Type} (key : A -> result Z) (l : list A)
  : result (list (Z * A)) :=
  match l with
  | [] => Ok []
  | a :: l' => k ← key a; kl ← decorate key l'; Ok ((k, a) :: kl)
  end.

Fixpoint insert_desc {A : Type} (ka : Z * A) (l : list (Z * A)) : list (Z * A) :=
  match l with
  | [] => [ka]
  | kb :: l' => if fst ka <? fst kb then kb :: insert_desc ka l' else ka :: l
  end.

Definition sort_desc {A : Type} (l : list (Z * A)) : list (Z * A) :=
  fold_right insert_desc [] l.

Definition sorted_reverse {A : Type} (key : A -> result Z) (l : list A)
  : result (list A) :=
  kl ← decorate key l; Ok (snd <$> sort_desc kl).

(** ** The store of Grid objects and the clock *)

Definition loc : Type := nat.

Record state : Type := mkState { heap : list Grid; ticks : nat }.

Definition M (A : Type) : Type := state -> result A * state.

#[global] Instance M_ret : MRet M := fun _ a s => (Ok a, s).
#[global] Instance M_bind : MBind M := fun _ _ f m s =>
  match m s with
  | (Ok a, s') => f a s'
  | (Raise e, s') => (Raise e, s')
  end.

Definition raise {A : Type} (e : exn) : M A := fun s => (Raise e, s).

Definition lift {A : Type} (r : result A) : M A := fun s => (r, s).

(** [try: m] with the outcome handed to the handler. *)
Definition try {A : Type} (m : M A) : M (result A) :=
  fun s => let '(r, s') := m s in (Ok r, s').

(** A location outside the store has no counterpart in Python, where a
    reference cannot dangle: a run that reads one stops with
    [DanglingReference]. *)
Definition deref (l : loc) : M Grid := fun s =>
  match heap s !! l with
  | Some g => (Ok g, s)
  | None => (Raise DanglingReference, s)
  end.

Definition alloc (g : Grid) : M loc := fun s =>
  (Ok (length (heap s)), mkState (heap s ++ [g]) (ticks s)).

Definition store (l : loc) (g : Grid) : M () := fun s =>
  (Ok (), mkState (<[l := g]> (heap s)) (ticks s)).

Fixpoint alloc_moves (moves : list (Move * Grid)) : M (list (Move * loc)) :=
  match moves with
  | [] => mret []
  | (move, g) :: moves' =>
      l ← alloc g; rest ← alloc_moves moves'; mret ((move, l) :: rest)
  end.

(** ** The rules of 2048: an instance of the Grid collaborator

    The usual slide-and-merge rules on a square board, used to run the agent
    on concrete boards. *)

Module Rules.

(** Equal neighbours merge once, left to right. *)
Fixpoint merge (cells : list Z) : list Z :=
  match cells with
  | a :: (b :: rest) as tail =>
      if a =? b then 2 * a :: merge rest else a :: merge tail
  | _ => cells
  end.

(** One row moved towards its head. *)
Definition slide (row : list Z) : list Z :=
  let cells := merge (filter (fun v => v ≠ 0) row) in
  cells ++ replicate (length row - length cells) 0.

Fixpoint transpose (rows : list (list Z)) : list (list Z) :=
  match rows with
  | [] => []
  | [row] => (fun v => [v]) <$> row
  | row :: rows' => zip_with cons row (transpose rows')
  end.

Definition move (dir : Move) (rows : list (list Z)) : list (list Z) :=
  match dir with
  | LEFT => slide <$> rows
  | RIGHT => (fun row => reverse (slide (reverse row))) <$> rows
  | UP => transpose (slide <$> transpose rows)
  | DOWN =>
      transpose ((fun row => reverse (slide (reverse row))) <$> transpose rows)
  end.

Definition getAvailableMoves (grid : Grid) : list (Move * Grid) :=
  omap (fun dir =>
          let rows := move dir (map grid) in
          if decide (rows = map grid) then None
          else Some (dir, mkGrid (size grid) rows))
       [UP; DOWN; LEFT; RIGHT].

Definition canMove (grid : Grid) : bool :=
  match getAvailableMoves grid with
  | [] => false
  | _ :: _ => true
  end.

Definition isEmpty (grid : Grid) (cell : Cell) : bool :=
  match cellValue grid cell.1 cell.2 with
  | Ok v => v =? 0
  | Raise _ => false
  end.

(** The empty cells, row by row. *)
Definition getAvailableCells (grid : Grid) : list Cell :=
  filter (fun cell => isEmpty grid cell = true)
         (x ← range (size grid); y ← range (size grid); [(x, y)]).

End Rules.

(** Four rows of four cells. *)
Definition rows_ok (rows : list (list Z)) : Prop :=
  length rows = 4%nat /\ Forall (fun row => length row = 4%nat) rows.

(** ** Boards and clocks for examples *)

Definition midgame : Grid :=
  mkGrid 4 [ [2; 2; 0; 4]; [4; 0; 4; 2]; [0; 4; 8; 4]; [4; 2; 16; 0] ].

Definition opening : Grid :=
  mkGrid 4 [ [0; 0; 0; 0]; [0; 0; 0; 0]; [0; 0; 0; 0]; [0; 0; 0; 2] ].

Definition stuck : Grid :=
  mkGrid 4 [ [2; 4; 2; 4]; [4; 2; 4; 2]; [2; 4; 2; 4]; [4; 2; 4; 2] ].

(** A full board that can still merge, and a board of 5 rows of 5. *)
Definition crowded : Grid :=
  mkGrid 4 [ [2; 2; 4; 8]; [4; 8; 16; 2]; [2; 4; 2; 4]; [4; 2; 4; 2] ].

Definition wide : Grid :=
  mkGrid 5 [ [2; 4; 2; 4; 2]; [4; 2; 4; 2; 4]; [2; 4; 2; 4; 2];
             [4; 2; 4; 2; 4]; [2; 4; 2; 4; 2] ].

(** A clock that stands still, and one that advances 0.05s per reading. *)
Definition frozen (k : nat) : Q := 0.

Definition ticking (k : nat) : Q := inject_Z (Z.of_nat k) * 0.05.

Section Agent.

(** The Grid collaborator's read-only queries, as functions of the board a
    Grid object holds. *)
Variable canMove : Grid -> bool.
Variable getAvailableMoves : Grid -> list (Move * Grid).
Variable getAvailableCells : Grid -> list Cell.

(** The system clock: [now k] is what the [k]-th call of [time.time()]
    returns. *)
Variable now : nat -> Q.

Definition time_time : M Q := fun s =>
  (Ok (now (ticks s)), mkState (heap s) (S (ticks s))).

(** *** Grid methods on objects *)

(** Modelled from the spec: [Grid.canMove] is not in [src/]; by its contract
    it is "true iff at least one legal player move exists" and reads only. *)
Definition grid_canMove (grid : loc) : M bool :=
  g ← deref grid; mret (canMove g).

(** Modelled from the spec: [Grid.getAvailableMoves] is not in [src/]; by
    its contract it "produces the set of (move, resultingBoardCopy) pairs",
    each copy a new object. *)
Definition grid_getAvailableMoves (grid : loc) : M (list (Move * loc)) :=
  g ← deref grid; alloc_moves (getAvailableMoves g).

(** Modelled from the spec: [Grid.getAvailableCells] is not in [src/]; by
    its contract it "produces the set of empty-cell coordinates". *)
Definition grid_getAvailableCells (grid : loc) : M (list Cell) :=
  g ← deref grid; mret (getAvailableCells g).

(** Modelled from the spec: [Grid.clone] is not in [src/]; it "returns an
    independent deep copy of the board". *)
Definition grid_clone (grid : loc) : M loc :=
  g ← deref grid; alloc g.

(** Modelled from the spec: [Grid.setCellValue] is not in [src/]; it
    "mutates the given cell in-place". *)
Definition grid_setCellValue (grid : loc) (cell : Cell) (value : Z) : M () :=
  g ← deref grid; g' ← lift (setCellValue g cell value); store grid g'.

(** *** Evaluation *)

Definition getEmptyCells (grid : Grid) : Z :=
  Z.of_nat (length (getAvailableCells grid)).

Definition evaluate (grid : Grid) : result pyfloat :=
  snake ← calcSnakeAdherence grid;
  smoothness ← calcSmoothness grid;
  let empty := getEmptyCells grid in
  corner ← checkMaxTileInCorner grid;
  Ok (Fin (snakeWeight * inject_Z snake +
           smoothnessWeight * inject_Z smoothness +
           emptyCellsWeight * inject_Z empty +
           maxInCornerWeight * inject_Z corner)%Q).

Definition grid_evaluate (grid : loc) : M pyfloat :=
  g ← deref grid; lift (evaluate g).

(** *** The search *)

Definition search : Type := loc -> pyfloat -> pyfloat -> M (pyfloat * option Move).

(** The loop of [maximize] over [(move, child)]. *)
Fixpoint max_loop (chance : search) (moves : list (Move * loc))
    (alpha beta : pyfloat) (maxChildMove : option Move)
    (maxStateUtility : pyfloat) : M (pyfloat * option Move) :=
  match moves with
  | [] => mret (maxStateUtility, maxChildMove)
  | (move, child) :: moves' =>
      '(minChanceUtility, _) ← chance child alpha beta;
      let '(maxChildMove, maxStateUtility) :=
        if flt maxStateUtility minChanceUtility
        then (Some move, minChanceUtility)
        else (maxChildMove, maxStateUtility) in
      let alpha := fmax alpha minChanceUtility in
      if fle beta alpha
      then mret (maxStateUtility, maxChildMove)
      else max_loop chance moves' alpha beta maxChildMove maxStateUtility
  end.

(** The inner loop of [minimize] over the tile values; it hands back the
    two variables it assigns. *)
Fixpoint min_tiles (maximize : search) (grid : loc) (cell : Cell)
    (tiles : list (Z * Q)) (alpha beta minStateUtility : pyfloat)
  : M (pyfloat * pyfloat) :=
  match tiles with
  | [] => mret (minStateUtility, beta)
  | (tileValue, probability) :: tiles' =>
      child ← grid_clone grid;
      _ ← grid_setCellValue child cell tileValue;
      '(childMaxUtility, _) ← maximize child alpha beta;
      let minStateUtility := fmin minStateUtility childMaxUtility in
      let beta := fmin beta childMaxUtility in
      if fle beta alpha
      then mret (minStateUtility, beta)
      else min_tiles maximize grid cell tiles' alpha beta minStateUtility
  end.

(** The outer loop of [minimize] over the cells. *)
Fixpoint min_cells (maximize : search) (grid : loc) (emptyCells : list Cell)
    (alpha beta minStateUtility : pyfloat) : M pyfloat :=
  match emptyCells with
  | [] => mret minStateUtility
  | cell :: emptyCells' =>
      '(minStateUtility, beta) ←
        min_tiles maximize grid cell possibleTileProbabilities
                  alpha beta minStateUtility;
      if fle beta alpha
      then mret minStateUtility
      else min_cells maximize grid emptyCells' alpha beta minStateUtility
  end.

(** [sorted(grid.getAvailableCells(), key=..., reverse=True)[:4]] *)
Definition rankCells (grid : loc) : M (list Cell) :=
  cells ← grid_getAvailableCells grid;
  ranked ← lift (sorted_reverse (getCellSnakeImportance grid) cells);
  mret (take 4 ranked).

Fixpoint maximize (depth : nat) (grid : loc) (alpha beta : pyfloat)
    (moveStartTime : Q) {struct depth} : M (pyfloat * option Move) :=
  match depth with
  | O => u ← grid_evaluate grid; mret (u, None)
  | S depth' =>
      movable ← grid_canMove grid;
      if negb movable then u ← grid_evaluate grid; mret (u, None)
      else
        t ← time_time;
        if Qle_bool playerMoveTimeLimit (t - moveStartTime)
        then raise TimeoutError
        else
          moves ← grid_getAvailableMoves grid;
          max_loop (fun child alpha beta =>
                      minimize depth' child alpha beta moveStartTime)
                   moves alpha beta None NegInf
  end
with minimize (depth : nat) (grid : loc) (alpha beta : pyfloat)
    (moveStartTime : Q) {struct depth} : M (pyfloat * option Move) :=
  match depth with
  | O => u ← grid_evaluate grid; mret (u, None)
  | S depth' =>
      movable ← grid_canMove grid;
      if negb movable then u ← grid_evaluate grid; mret (u, None)
      else
        t ← time_time;
        if Qle_bool playerMoveTimeLimit (t - moveStartTime)
        then raise TimeoutError
        else
          emptyCells ← rankCells grid;
          minStateUtility ←
            min_cells (fun child alpha beta =>
                         maximize depth' child alpha beta moveStartTime)
                      grid emptyCells alpha beta PosInf;
          mret (minStateUtility, None)
  end.

Definition chance : nat -> loc -> pyfloat -> pyfloat -> Q ->
                    M (pyfloat * option Move) := minimize.

(** *** Iterative deepening *)

(** The [while] loop of [getMove], at most [fuel] rounds of it; [None] when
    the rounds did not suffice, else the locals [bestMove] and [depth] at
    the exit. *)
Fixpoint getMove_loop (fuel : nat) (grid : loc) (moveStartTime : Q)
    (depth : nat) (bestMove : option Move)
  : M (option (option Move * nat)) :=
  match fuel with
  | O => mret None
  | S fuel' =>
      t ← time_time;
      if negb (Qle_bool playerMoveTimeLimit (t - moveStartTime))
      then
        r ← try (maximize depth grid NegInf PosInf moveStartTime);
        match r with
        | Ok (_, move) =>
            let bestMove :=
              match move with Some m => Some m | None => bestMove end in
            getMove_loop fuel' grid moveStartTime (S depth) bestMove
        | Raise TimeoutError => mret (Some (bestMove, depth))
        | Raise e => raise e
        end
      else mret (Some (bestMove, depth))
  end.

Definition getMove (fuel : nat) (grid : loc) : M (option (option Move)) :=
  moveStartTime ← time_time;
  r ← getMove_loop fuel grid moveStartTime 1 None;
  mret (fst <$> r).

(** ** The search on boards, with the clock left out

    The same code read on the boards the objects hold, for a clock that never
    reaches the budget: no store, no [TimeoutError]. *)

Definition search_val : Type :=
  Grid -> pyfloat -> pyfloat -> result (pyfloat * option Move).

Fixpoint max_loop_val (chance : search_val) (moves : list (Move * Grid))
    (alpha beta : pyfloat) (maxChildMove : option Move)
    (maxStateUtility : pyfloat) : result (pyfloat * option Move) :=
  match moves with
  | [] => Ok (maxStateUtility, maxChildMove)
  | (move, child) :: moves' =>
      '(minChanceUtility, _) ← chance child alpha beta;
      let '(maxChildMove, maxStateUtility) :=
        if flt maxStateUtility minChanceUtility
        then (Some move, minChanceUtility)
        else (maxChildMove, maxStateUtility) in
      let alpha := fmax alpha minChanceUtility in
      if fle beta alpha
      then Ok (maxStateUtility, maxChildMove)
      else max_loop_val chance moves' alpha beta maxChildMove maxStateUtility
  end.

Fixpoint min_tiles_val (maximize : search_val) (grid : Grid) (cell : Cell)
    (tiles : list (Z * Q)) (alpha beta minStateUtility : pyfloat)
  : result (pyfloat * pyfloat) :=
  match tiles with
  | [] => Ok (minStateUtility, beta)
  | (tileValue, probability) :: tiles' =>
      child ← setCellValue grid cell tileValue;
      '(childMaxUtility, _) ← maximize child alpha beta;
      let minStateUtility := fmin minStateUtility childMaxUtility in
      let beta := fmin beta childMaxUtility in
      if fle beta alpha
      then Ok (minStateUtility, beta)
      else min_tiles_val maximize grid cell tiles' alpha beta minStateUtility
  end.

Fixpoint min_cells_val (maximize : search_val) (grid : Grid)
    (emptyCells : list Cell) (alpha beta minStateUtility : pyfloat)
  : result pyfloat :=
  match emptyCells with
  | [] => Ok minStateUtility
  | cell :: emptyCells' =>
      '(minStateUtility, beta) ←
        min_tiles_val maximize grid cell possibleTileProbabilities
                      alpha beta minStateUtility;
      if fle beta alpha
      then Ok minStateUtility
      else min_cells_val maximize grid emptyCells' alpha beta minStateUtility
  end.

Definition rankCells_val (grid : Grid) : result (list Cell) :=
  ranked ← sorted_reverse (getCellSnakeImportance grid) (getAvailableCells grid);
  Ok (take 4 ranked).

Definition leaf (grid : Grid) : result (pyfloat * option Move) :=
  u ← evaluate grid; Ok (u, None).

Fixpoint maximize_val (depth : nat) (grid : Grid) (alpha beta : pyfloat)
    {struct depth} : result (pyfloat * option Move) :=
  match depth with
  | O => leaf grid
  | S depth' =>
      if negb (canMove grid) then leaf grid
      else max_loop_val (minimize_val depth') (getAvailableMoves grid)
                        alpha beta None NegInf
  end
with minimize_val (depth : nat) (grid : Grid) (alpha beta : pyfloat)
    {struct depth} : result (pyfloat * option Move) :=
  match depth with
  | O => leaf grid
  | S depth' =>
      if negb (canMove grid) then leaf grid
      else
        emptyCells ← rankCells_val grid;
        minStateUtility ←
          min_cells_val (maximize_val depth') grid emptyCells alpha beta PosInf;
        Ok (minStateUtility, None)
  end.

(** ** Minimax without pruning

    The full traversal of the same tree: every legal move at a maximizing
    node; at a chance node every one of the ranked cells with both tile
    values. A maximizing node keeps the first move of greatest utility. *)

Definition best_step (best : pyfloat * option Move) (scored : Move * pyfloat)
  : pyfloat * option Move :=
  let '(move, u) := scored in if flt best.1 u then (u, Some move) else best.

Definition best_of (scored : list (Move * pyfloat)) : pyfloat * option Move :=
  fold_left best_step scored (NegInf, None).

Definition least_of (utilities : list pyfloat) : pyfloat :=
  fold_left fmin utilities PosInf.

Definition placements (cells : list Cell) : list (Cell * Z) :=
  cell ← cells; tile ← possibleTileProbabilities; [(cell, tile.1)].

Fixpoint minimax_max (depth : nat) (grid : Grid) {struct depth}
  : result (pyfloat * option Move) :=
  match depth with
  | O => leaf grid
  | S depth' =>
      if negb (canMove grid) then leaf grid
      else
        scored ← mapM (fun '(move, child) =>
                         r ← minimax_min depth' child; Ok (move, r.1))
                      (getAvailableMoves grid);
        Ok (best_of scored)
  end
with minimax_min (depth : nat) (grid : Grid) {struct depth}
  : result (pyfloat * option Move) :=
  match depth with
  | O => leaf grid
  | S depth' =>
      if negb (canMove grid) then leaf grid
      else
        cells ← rankCells_val grid;
        utilities ← mapM (fun '(cell, tile) =>
                            child ← setCellValue grid cell tile;
                            r ← minimax_max depth' child; Ok r.1)
                         (placements cells);
        Ok (least_of utilities, None)
  end.

(** * Notions used in the statements *)

(** The order on floats as propositions: [a < b], and [a <= b] as "not
    [b < a]". *)
Definition ltf (a b : pyfloat) : Prop := flt a b = true.

Definition lef (a b : pyfloat) : Prop := flt b a = false.

(** [ab_ok alpha beta v r]: [r] is what a pruned search may return for a node
    of minimax value [v] searched with window [(alpha, beta)]: the value
    itself inside the window, a bound on the same side outside. *)
Definition ab_ok (alpha beta v r : pyfloat) : Prop :=
  (ltf alpha v -> ltf v beta -> r = v) /\
  (lef v alpha -> lef v r /\ lef r alpha) /\
  (lef beta v -> lef beta r /\ lef r v).

(** [f] is a pruned search of the node [c], whose minimax value is [v]. *)
Definition prunes (f : search_val) (c : Grid) (v : pyfloat) : Prop :=
  forall alpha beta, ltf alpha beta ->
    exists r x, f c alpha beta = Ok (r, x) /\ ab_ok alpha beta v r.

(** The two loops of [minimize] as one loop over the placements. *)
Fixpoint min_flat (maximize : search_val) (grid : Grid)
    (ps : list (Cell * Z)) (alpha beta minStateUtility : pyfloat)
  : result pyfloat :=
  match ps with
  | [] => Ok minStateUtility
  | (cell, tile) :: ps' =>
      child ← setCellValue grid cell tile;
      '(childMaxUtility, _) ← maximize child alpha beta;
      let minStateUtility := fmin minStateUtility childMaxUtility in
      let beta := fmin beta childMaxUtility in
      if fle beta alpha
      then Ok minStateUtility
      else min_flat maximize grid ps' alpha beta minStateUtility
  end.

(** The board of the data model: 4 rows of 4 cells. *)
Definition wf (grid : Grid) : Prop :=
  size grid = 4%nat /\ length (map grid) = 4%nat /\
  Forall (fun row => length row = 4%nat) (map grid).

(** The coordinates of the board. *)
Definition in_board (cell : Cell) : Prop := (cell.1 < 4)%nat /\ (cell.2 < 4)%nat.

(** What the agent relies on from the collaborator, for boards of the data
    model. *)
Hypothesis getAvailableMoves_wf : forall grid move child,
  wf grid -> (move, child) ∈ getAvailableMoves grid -> wf child.

Hypothesis getAvailableCells_spec : forall grid,
  wf grid ->
  NoDup (getAvailableCells grid) /\
  forall x y, (x, y) ∈ getAvailableCells grid <-> cellValue grid x y = Ok 0.

Hypothesis canMove_spec : forall grid,
  wf grid -> (canMove grid = true <-> getAvailableMoves grid <> []).

(** Keys in descending order. *)
Definition desc {A : Type} (a b : Z * A) : Prop := b.1 <= a.1.

(** The entry of the snake table at a cell. *)
Definition weightOf (cell : Cell) : Z :=
  nth cell.2 (nth cell.1 snakeShapedWeights []) 0.

(** [c1] ranks before [c2]. *)
Definition heavier (c1 c2 : Cell) : Prop := weightOf c2 <= weightOf c1.

(** What holds of a maximizing node: the unpruned value and move, and for
    every window a pruned result within [ab_ok]; inside the window, or with
    the full window, value and move are the unpruned ones. *)
Definition max_sound (depth : nat) (grid : Grid) : Prop :=
  exists v mv,
    minimax_max depth grid = Ok (v, mv) /\
    forall alpha beta, ltf alpha beta ->
      exists r mr,
        maximize_val depth grid alpha beta = Ok (r, mr) /\
        ab_ok alpha beta v r /\
        ((ltf alpha v /\ ltf v beta) \/ (alpha = NegInf /\ beta = PosInf) ->
         (r, mr) = (v, mv)).

Definition min_sound (depth : nat) (grid : Grid) : Prop :=
  exists v,
    minimax_min depth grid = Ok (v, None) /\
    forall alpha beta, ltf alpha beta ->
      exists r,
        minimize_val depth grid alpha beta = Ok (r, None) /\
        ab_ok alpha beta v r.

(** The state after one reading of the clock. *)
Definition tick (s : state) : state := mkState (heap s) (S (ticks s)).

(** The clock test of [maximize] and [minimize] at the [k]-th reading. *)
Definition expired (moveStartTime : Q) (k : nat) : bool :=
  Qle_bool playerMoveTimeLimit (now k - moveStartTime).

(** [clean s s']: a stretch of a run that only added objects to the store and
    read the clock only before the budget was reached. *)
Definition clean (start : Q) (s s' : state) : Prop :=
  heap s `prefix_of` heap s' /\ (ticks s <= ticks s')%nat /\
  forall k, (ticks s <= k < ticks s')%nat -> expired start k = false.

(** [timed_out s s']: the same, but for the last reading, which reached the
    budget. *)
Definition timed_out (start : Q) (s s' : state) : Prop :=
  heap s `prefix_of` heap s' /\ (ticks s < ticks s')%nat /\
  expired start (pred (ticks s')) = true /\
  forall k, (ticks s <= k < pred (ticks s'))%nat -> expired start k = false.

(** [runs_as s out rv]: the run from [s] ended as the clock-free reading [rv]
    says, or was cut short by the clock. *)
Definition runs_as {A : Type} (start : Q) (s : state)
    (out : result A * state) (rv : result A) : Prop :=
  (out.1 = rv /\ clean start s out.2) \/
  (out.1 = Raise TimeoutError /\ timed_out start s out.2).

(** A result other than [TimeoutError]. *)
Definition quiet {A : Type} (r : result A) : Prop := r <> Raise TimeoutError.

(** The move the [n]-th round of iterative deepening hands to [bestMove]. *)
Definition recorded (board : Grid) (n : nat) : option Move :=
  match n with
  | O => None
  | S _ =>
      match minimax_max n board with
      | Ok (_, move) => move
      | Raise _ => None
      end
  end.

(** A round of the deepening loop of [getMove] that completes: the test of
    the loop, made in state [s], is in time and the search of depth [n] then
    returns, with [move], in state [s']. *)
Definition round_completes (grid : loc) (start : Q) (n : nat)
    (move : option Move) (s s' : state) : Prop :=
  expired start (ticks s) = false /\
  exists utility,
    maximize n grid NegInf PosInf start (tick s) = (Ok (utility, move), s').

(** The round that ends the loop: its test of the loop is late, or its search
    is cut short by [TimeoutError]. *)
Definition round_cut (grid : loc) (start : Q) (n : nat) (s s' : state)
  : Prop :=
  (expired start (ticks s) = true /\ s' = tick s) \/
  (expired start (ticks s) = false /\
   maximize n grid NegInf PosInf start (tick s) = (Raise TimeoutError, s')).

(** The tile at a cell (0 outside the map). *)
Definition tile (grid : Grid) (cell : Cell) : Z :=
  match cellValue grid cell.1 cell.2 with
  | Ok v => v
  | Raise _ => 0
  end.

(** The 16 cells, row by row. *)
Definition boardCells : list Cell := x ← range 4; y ← range 4; [(x, y)].

Definition sumZ {A : Type} (f : A -> Z) (l : list A) : Z :=
  foldr (fun a acc => f a + acc) 0 l.

(** Snake adherence: tile value times snake weight, over all cells. *)
Definition snakeOf (grid : Grid) : Z :=
  sumZ (fun cell => tile grid cell * weightOf cell) boardCells.

(** [c2] is the neighbour of [c1] in the next column or in the next row: each
    pair of adjacent cells is taken once. *)
Definition adjacent (c1 c2 : Cell) : bool :=
  ((c1.1 =? c2.1)%nat && (c1.2 + 1 =? c2.2)%nat) ||
  ((c1.1 + 1 =? c2.1)%nat && (c1.2 =? c2.2)%nat).

Definition adjacentPairs : list (Cell * Cell) :=
  filter (fun p => adjacent p.1 p.2 = true)
         (c1 ← boardCells; c2 ← boardCells; [(c1, c2)]).

(** Smoothness: minus the absolute differences over the adjacent pairs. *)
Definition smoothnessOf (grid : Grid) : Z :=
  - sumZ (fun p => Z.abs (tile grid p.1 - tile grid p.2)) adjacentPairs.

(** The number of cells that hold 0. *)
Definition emptyCount (grid : Grid) : Z :=
  Z.of_nat (length (filter (fun cell => tile grid cell = 0) boardCells)).

(** [m] is the greatest tile of the board. *)
Definition is_max_tile (grid : Grid) (m : Z) : Prop :=
  (exists cell, in_board cell /\ tile grid cell = m) /\
  forall cell, in_board cell -> tile grid cell <= m.

(** The place of a cell on the snake: the path that runs through row 0 from
    column 3 back to column 0, through row 1 from column 0 to column 3, and so
    on, counted from its far end, so that the cell at row 0, column 0 has
    place 15. *)
Definition snakeRank (cell : Cell) : Z :=
  if Nat.even cell.1
  then 15 - 4 * Z.of_nat cell.1 - Z.of_nat cell.2
  else 12 - 4 * Z.of_nat cell.1 + Z.of_nat cell.2.

(** Two cells that share a side. *)
Definition neighbours (c1 c2 : Cell) : Prop :=
  Z.abs (Z.of_nat c1.1 - Z.of_nat c2.1) +
  Z.abs (Z.of_nat c1.2 - Z.of_nat c2.2) = 1.

(** * Facts *)

(** ** The order on floats *)

Lemma fle_flt (a b : pyfloat) : fle a b = negb (flt b a).
Proof.
  destruct a, b; simpl; try reflexivity.
  now rewrite negb_involutive.
Qed.

Lemma flt_Fin (p q : Q) : flt (Fin p) (Fin q) = true <-> (p < q)%Q.
Proof.
  simpl. rewrite negb_true_iff, <- not_true_iff_false, Qle_bool_iff.
  split; [apply Qnot_le_lt | apply Qlt_not_le].
Qed.

Lemma flt_Fin_false (p q : Q) : flt (Fin p) (Fin q) = false <-> (q <= p)%Q.
Proof.
  simpl. rewrite negb_false_iff. apply Qle_bool_iff.
Qed.

Lemma ltf_irrefl (a : pyfloat) : ~ ltf a a.
Proof.
  unfold ltf. destruct a; simpl; try discriminate.
  rewrite negb_true_iff, <- not_true_iff_false, Qle_bool_iff.
  intros H. apply H, Qle_refl.
Qed.

Lemma lef_refl (a : pyfloat) : lef a a.
Proof. unfold lef. apply not_true_is_false, ltf_irrefl. Qed.

Lemma ltf_trans (a b c : pyfloat) : ltf a b -> ltf b c -> ltf a c.
Proof.
  unfold ltf. destruct a, b, c; try discriminate; try reflexivity.
  rewrite !flt_Fin. apply Qlt_trans.
Qed.

Lemma lef_trans (a b c : pyfloat) : lef a b -> lef b c -> lef a c.
Proof.
  unfold lef. destruct a, b, c; try discriminate; try reflexivity.
  rewrite !flt_Fin_false. intros H1 H2. now apply Qle_trans with q0.
Qed.

Lemma ltf_le_trans (a b c : pyfloat) : ltf a b -> lef b c -> ltf a c.
Proof.
  unfold ltf, lef. destruct a, b, c; try discriminate; try reflexivity.
  rewrite flt_Fin_false, !flt_Fin. apply Qlt_le_trans.
Qed.

Lemma lef_lt_trans (a b c : pyfloat) : lef a b -> ltf b c -> ltf a c.
Proof.
  unfold ltf, lef. destruct a, b, c; try discriminate; try reflexivity.
  rewrite flt_Fin_false, !flt_Fin. apply Qle_lt_trans.
Qed.

Lemma ltf_le (a b : pyfloat) : ltf a b -> lef a b.
Proof.
  unfold ltf, lef. destruct a, b; try discriminate; try reflexivity.
  rewrite flt_Fin_false, flt_Fin. apply Qlt_le_weak.
Qed.

Lemma ltf_not_le (a b : pyfloat) : ltf a b -> ~ lef b a.
Proof. unfold ltf, lef. congruence. Qed.

Lemma ltf_or_le (a b : pyfloat) : ltf a b \/ lef b a.
Proof. unfold ltf, lef. destruct (flt a b); auto. Qed.

Lemma lef_NegInf (a : pyfloat) : lef a NegInf -> a = NegInf.
Proof. unfold lef. destruct a; simpl; congruence. Qed.

Lemma lef_PosInf (a : pyfloat) : lef PosInf a -> a = PosInf.
Proof. unfold lef. destruct a; simpl; congruence. Qed.

Lemma NegInf_le (a : pyfloat) : lef NegInf a.
Proof. unfold lef. now destruct a. Qed.

Lemma lef_PosInf_r (a : pyfloat) : lef a PosInf.
Proof. unfold lef. now destruct a. Qed.

Lemma fle_true (a b : pyfloat) : fle a b = true <-> lef a b.
Proof. rewrite fle_flt, negb_true_iff. reflexivity. Qed.

Lemma fle_false (a b : pyfloat) : fle a b = false <-> ltf b a.
Proof. rewrite fle_flt, negb_false_iff. reflexivity. Qed.

Lemma fmax_l (a b : pyfloat) : lef b a -> fmax a b = a.
Proof. unfold lef, fmax. now intros ->. Qed.

Lemma fmax_r (a b : pyfloat) : ltf a b -> fmax a b = b.
Proof. unfold ltf, fmax. now intros ->. Qed.

Lemma fmin_l (a b : pyfloat) : lef a b -> fmin a b = a.
Proof. unfold lef, fmin. now intros ->. Qed.

Lemma fmin_r (a b : pyfloat) : ltf b a -> fmin a b = b.
Proof. unfold ltf, fmin. now intros ->. Qed.

Create HintDb fl.
#[local] Hint Resolve lef_refl ltf_le NegInf_le lef_PosInf_r : fl.

Lemma ltf_NegInf (a : pyfloat) : ~ ltf a NegInf.
Proof. unfold ltf. now destruct a. Qed.

Lemma ltf_PosInf (a : pyfloat) : ~ ltf PosInf a.
Proof. unfold ltf. now destruct a. Qed.

(** Order goals over floats: the comparisons in the context are closed under
    transitivity until a strict cycle shows up. *)
Ltac fl_cases :=
  repeat match goal with
  | H : context [if flt ?a ?b then _ else _] |- _ => destruct (flt a b) eqn:?
  | |- context [if flt ?a ?b then _ else _] => destruct (flt a b) eqn:?
  end.

Ltac fl_hyps :=
  repeat match goal with
  | H : flt ?a ?b = true |- _ => change (ltf a b) in H
  | H : flt ?a ?b = false |- _ => change (lef b a) in H
  end.

Ltac fl_new H :=
  let T := type of H in
  lazymatch goal with
  | _ : T |- _ => fail
  | _ => pose proof H
  end.

Ltac fl_saturate :=
  repeat match goal with
  | H : ltf ?a ?a |- _ => exact (False_ind _ (ltf_irrefl a H))
  | H : ltf ?a NegInf |- _ => exact (False_ind _ (ltf_NegInf a H))
  | H : ltf PosInf ?a |- _ => exact (False_ind _ (ltf_PosInf a H))
  | H1 : ltf ?a ?b, H2 : ltf ?b ?c |- _ => fl_new (ltf_trans a b c H1 H2)
  | H1 : ltf ?a ?b, H2 : lef ?b ?c |- _ => fl_new (ltf_le_trans a b c H1 H2)
  | H1 : lef ?a ?b, H2 : ltf ?b ?c |- _ => fl_new (lef_lt_trans a b c H1 H2)
  | H1 : lef ?a ?b, H2 : lef ?b ?c |- _ =>
      lazymatch a with
      | c => fail
      | _ => fl_new (lef_trans a b c H1 H2)
      end
  end.

Ltac fl_goal :=
  lazymatch goal with
  | |- False => idtac
  | |- ltf ?a ?b => destruct (ltf_or_le a b); [assumption|exfalso]
  | |- lef ?a ?b => destruct (ltf_or_le b a); [exfalso|assumption]
  | |- flt ?a ?b = true => change (ltf a b); destruct (ltf_or_le a b); [assumption|exfalso]
  | |- flt ?a ?b = false => change (lef b a); destruct (ltf_or_le a b); [exfalso|assumption]
  | |- _ => exfalso
  end.

Ltac fl_order :=
  solve [ assumption | reflexivity
        | unfold fmax, fmin in *; fl_cases; fl_hyps;
          first [ assumption | reflexivity | fl_goal; fl_hyps; fl_saturate ] ].

(** ** Alpha-beta pruning on boards *)

Lemma best_step_mono (l : list (Move * pyfloat)) (acc : pyfloat * option Move) :
  lef acc.1 (fold_left best_step l acc).1.
Proof.
  revert acc. induction l as [|[m u] l IH]; intros acc; simpl.
  - apply lef_refl.
  - eapply lef_trans; [|apply IH].
    destruct acc as [bu bm]; simpl. destruct (flt bu u) eqn:E; simpl.
    + now apply ltf_le.
    + apply lef_refl.
Qed.

Lemma best_step_top (l : list (Move * pyfloat)) (bm : option Move) :
  fold_left best_step l (PosInf, bm) = (PosInf, bm).
Proof. induction l as [|[m u] l IH]; simpl; auto. Qed.

Lemma max_loop_sound (chance : search_val) (moves : list (Move * Grid))
    (scored : list (Move * pyfloat)) :
  Forall2 (fun mc mv => mc.1 = mv.1 /\ prunes chance mc.2 mv.2) moves scored ->
  forall alpha alpha' beta bu bm mu mm,
    ltf alpha' beta ->
    lef alpha alpha' -> lef bu alpha' -> (lef alpha' alpha \/ lef alpha' bu) ->
    lef mu alpha' ->
    (ltf alpha bu \/ alpha = NegInf -> mu = bu /\ mm = bm) ->
    (lef bu alpha -> lef bu mu /\ lef mu alpha) ->
    exists R mR,
      max_loop_val chance moves alpha' beta mm mu = Ok (R, mR) /\
      ab_ok alpha beta (fold_left best_step scored (bu, bm)).1 R /\
      ((ltf alpha (fold_left best_step scored (bu, bm)).1 /\
        ltf (fold_left best_step scored (bu, bm)).1 beta) \/
       (alpha = NegInf /\ beta = PosInf) ->
       (R, mR) = fold_left best_step scored (bu, bm)).
Proof.
  induction 1 as [|[m c] [m' v] moves scored [Hm Hc] _ IH];
    intros alpha alpha' beta bu bm mu mm Hw Ha Hb Hab Hmu HE HL; simpl in *.
  - exists mu, mm. split; [reflexivity|]. split.
    + repeat split; intros.
      * destruct HE as [-> _]; auto.
      * now apply HL.
      * now apply HL.
      * exfalso. clear HE HL. fl_order.
      * exfalso. clear HE HL. fl_order.
    + intros [[H1 H2]|[H1 H2]]; f_equal; apply HE; auto.
  - subst m'. destruct (Hc alpha' beta Hw) as (r & x & -> & Hr1 & Hr2 & Hr3).
    simpl.
    destruct (ltf_or_le alpha' v) as [Hlo|Hlo];
      [destruct (ltf_or_le v beta) as [Hhi|Hhi]|].
    + (* exact *)
      rewrite (Hr1 Hlo Hhi). clear Hr1 Hr2 Hr3 r.
      assert (flt mu v = true) as -> by (clear HE HL IH; fl_order).
      assert (flt bu v = true) as -> by (clear HE HL IH; fl_order).
      rewrite (fmax_r alpha' v Hlo).
      assert (fle beta v = false) as -> by now apply fle_false.
      apply IH; auto.
      * clear HE HL IH; fl_order.
      * apply lef_refl.
      * right. apply lef_refl.
      * apply lef_refl.
      * intros Hx. exfalso. clear HE HL IH; fl_order.
    + (* fail high *)
      destruct (Hr3 Hhi) as [Hbr Hrv]. clear Hr1 Hr2 Hr3.
      assert (flt mu r = true) as -> by (clear HE HL IH; fl_order).
      assert (flt bu v = true) as -> by (clear HE HL IH; fl_order).
      rewrite (fmax_r alpha' r) by (clear HE HL IH; fl_order).
      assert (fle beta r = true) as -> by now apply fle_true.
      exists r, (Some m). split; [reflexivity|].
      pose proof (best_step_mono scored (v, Some m)) as Hmono. simpl in Hmono.
      split.
      * clear HE HL IH.
        set (V := (fold_left best_step scored (v, Some m)).1) in *. clearbody V.
        repeat split; intros; try (exfalso; fl_order); auto; fl_order.
      * intros [[H1 H2]|[H1 H2]].
        -- exfalso; clear HE HL IH.
           set (V := (fold_left best_step scored (v, Some m)).1) in *.
           clearbody V. fl_order.
        -- subst beta. apply lef_PosInf in Hbr. subst r.
           apply lef_PosInf in Hrv. subst v.
           now rewrite best_step_top.
    + (* fail low *)
      destruct (Hr2 Hlo) as [Hvr Hra]. clear Hr1 Hr2 Hr3 Hc.
      rewrite (fmax_l alpha' r Hra).
      assert (fle beta alpha' = false) as -> by now apply fle_false.
      destruct (ltf_or_le alpha bu) as [Hc1|Hc1].
      * destruct HE as [-> ->]; auto. clear HL.
        assert (flt bu v = false) as ->
            by (clear IH; destruct Hab; fl_order).
        assert (flt bu r = false) as ->
            by (clear IH; destruct Hab; fl_order).
        apply IH; auto. intros Hx. exfalso. clear IH. fl_order.
      * destruct (HL Hc1) as [HL1 HL2]. clear HL.
        assert (lef r alpha) by (clear IH HE; destruct Hab; fl_order).
        assert (lef v alpha) by (clear IH HE; destruct Hab; fl_order).
        destruct (flt bu v) eqn:E1, (flt mu r) eqn:E2; simpl;
          (apply IH;
           [ assumption | assumption
           | clear IH HE; fl_order
           | clear IH HE; destruct Hab; [now left|right; fl_order]
           | clear IH HE; fl_order
           | intros [Hx|Hx]; [exfalso; clear IH HE; fl_order|];
             subst alpha; destruct HE as [-> ->]; auto;
             exfalso; clear IH; fl_order
           | intros _; clear IH HE; split; fl_order ]).
Qed.

Lemma min_cells_flat (maximize : search_val) (grid : Grid) (cells : list Cell) :
  forall alpha beta mu,
    min_cells_val maximize grid cells alpha beta mu =
    min_flat maximize grid (placements cells) alpha beta mu.
Proof.
  induction cells as [|cell cells IH]; intros alpha beta mu; [reflexivity|].
  change (placements (cell :: cells))
    with ((cell, 2) :: (cell, 4) :: placements cells).
  simpl.
  destruct (setCellValue grid cell 2) as [c1|e]; simpl; [|reflexivity].
  destruct (maximize c1 alpha beta) as [[u1 x1]|e]; simpl; [|reflexivity].
  destruct (fle (fmin beta u1) alpha) eqn:E1; simpl.
  - now rewrite E1.
  - destruct (setCellValue grid cell 4) as [c2|e]; simpl; [|reflexivity].
    destruct (maximize c2 alpha (fmin beta u1)) as [[u2 x2]|e]; simpl;
      [|reflexivity].
    destruct (fle (fmin (fmin beta u1) u2) alpha) eqn:E2; simpl.
    + now rewrite E2.
    + rewrite E2. apply IH.
Qed.

Lemma fmin_fold_le (l : list pyfloat) (acc : pyfloat) :
  lef (fold_left fmin l acc) acc.
Proof.
  revert acc. induction l as [|u l IH]; intros acc; simpl.
  - apply lef_refl.
  - eapply lef_trans; [apply IH|]. fl_order.
Qed.

Lemma min_flat_sound (maximize : search_val) (grid : Grid)
    (ps : list (Cell * Z)) (vs : list pyfloat) :
  Forall2 (fun p v => exists child, setCellValue grid p.1 p.2 = Ok child /\
                                    prunes maximize child v) ps vs ->
  forall alpha beta beta' bu mu,
    ltf alpha beta' ->
    lef beta' beta -> lef beta' bu -> (lef beta beta' \/ lef bu beta') ->
    lef beta' mu ->
    (ltf bu beta -> mu = bu) ->
    (lef beta bu -> lef beta mu /\ lef mu bu) ->
    exists R,
      min_flat maximize grid ps alpha beta' mu = Ok R /\
      ab_ok alpha beta (fold_left fmin vs bu) R.
Proof.
  induction 1 as [|[cell tile] v ps vs (child & Hset & Hc) _ IH];
    intros alpha beta beta' bu mu Hw Ha Hb Hab Hmu HE HL; simpl in *.
  - exists mu. split; [reflexivity|].
    repeat split; intros.
    + now apply HE.
    + exfalso. clear HE HL. fl_order.
    + exfalso. clear HE HL. fl_order.
    + now apply HL.
    + now apply HL.
  - rewrite Hset. simpl.
    destruct (Hc alpha beta' Hw) as (r & x & -> & Hr1 & Hr2 & Hr3). simpl.
    clear Hc Hset.
    destruct (ltf_or_le alpha v) as [Hlo|Hlo];
      [destruct (ltf_or_le v beta') as [Hhi|Hhi]|].
    + (* exact *)
      rewrite (Hr1 Hlo Hhi). clear Hr1 Hr2 Hr3 r.
      rewrite (fmin_r mu v) by (clear HE HL IH; fl_order).
      rewrite (fmin_r bu v) by (clear HE HL IH; fl_order).
      rewrite (fmin_r beta' v Hhi).
      assert (fle v alpha = false) as -> by now apply fle_false.
      apply IH; auto.
      * clear HE HL IH; fl_order.
      * apply lef_refl.
      * right. apply lef_refl.
      * apply lef_refl.
      * intros Hx. exfalso. clear HE HL IH; fl_order.
    + (* fail high *)
      destruct (Hr3 Hhi) as [Hbr Hrv]. clear Hr1 Hr2 Hr3.
      rewrite (fmin_l beta' r Hbr).
      assert (fle beta' alpha = false) as -> by now apply fle_false.
      destruct (ltf_or_le bu beta) as [Hc1|Hc1].
      * rewrite (HE Hc1) in *. clear HL HE.
        rewrite (fmin_l bu v) by (clear IH; destruct Hab; fl_order).
        rewrite (fmin_l bu r) by (clear IH; destruct Hab; fl_order).
        apply IH; auto. intros Hx. exfalso. clear IH. fl_order.
      * destruct (HL Hc1) as [HL1 HL2]. clear HL HE.
        assert (lef beta r) by (clear IH; destruct Hab; fl_order).
        assert (lef beta v) by (clear IH; destruct Hab; fl_order).
        apply IH;
          [ assumption | assumption
          | clear IH; fl_order
          | clear IH; destruct Hab; [now left|right; fl_order]
          | clear IH; fl_order
          | intros Hx; exfalso; clear IH; fl_order
          | intros _; clear IH; split; fl_order ].
    + (* fail low *)
      destruct (Hr2 Hlo) as [Hvr Hra]. clear Hr1 Hr2 Hr3.
      rewrite (fmin_r mu r) by (clear HE HL IH; fl_order).
      rewrite (fmin_r beta' r) by (clear HE HL IH; fl_order).
      assert (fle r alpha = true) as -> by now apply fle_true.
      exists r. split; [reflexivity|].
      pose proof (fmin_fold_le vs (fmin bu v)) as Hmono.
      set (V := fold_left fmin vs (fmin bu v)) in *. clearbody V.
      clear HE HL IH.
      assert (lef V v) by fl_order. clear Hmono.
      repeat split; intros; try (exfalso; fl_order); fl_order.
Qed.

(** ** Well-formed boards and the Grid contract *)

Lemma wf_inv (grid : Grid) :
  wf grid ->
  exists a0 a1 a2 a3 b0 b1 b2 b3 c0 c1 c2 c3 d0 d1 d2 d3,
    grid = mkGrid 4 [ [a0; a1; a2; a3]; [b0; b1; b2; b3];
                      [c0; c1; c2; c3]; [d0; d1; d2; d3] ].
Proof.
  destruct grid as [n rows]. intros (Hn & Hl & Hr). simpl in *. subst n.
  destruct rows as [|r0 [|r1 [|r2 [|r3 [|]]]]]; try discriminate.
  apply Forall_cons in Hr as [H0 Hr]. apply Forall_cons in Hr as [H1 Hr].
  apply Forall_cons in Hr as [H2 Hr]. apply Forall_cons in Hr as [H3 _].
  destruct r0 as [|? [|? [|? [|? [|]]]]]; try discriminate.
  destruct r1 as [|? [|? [|? [|? [|]]]]]; try discriminate.
  destruct r2 as [|? [|? [|? [|? [|]]]]]; try discriminate.
  destruct r3 as [|? [|? [|? [|? [|]]]]]; try discriminate.
  repeat eexists.
Qed.

Ltac grid_inv H :=
  let a0 := fresh "a0" in let a1 := fresh "a1" in let a2 := fresh "a2" in
  let a3 := fresh "a3" in let b0 := fresh "b0" in let b1 := fresh "b1" in
  let b2 := fresh "b2" in let b3 := fresh "b3" in let c0 := fresh "c0" in
  let c1 := fresh "c1" in let c2 := fresh "c2" in let c3 := fresh "c3" in
  let d0 := fresh "d0" in let d1 := fresh "d1" in let d2 := fresh "d2" in
  let d3 := fresh "d3" in
  destruct (wf_inv _ H)
    as (a0 & a1 & a2 & a3 & b0 & b1 & b2 & b3 &
        c0 & c1 & c2 & c3 & d0 & d1 & d2 & d3 & ->).

Lemma wf_mk (a0 a1 a2 a3 b0 b1 b2 b3 c0 c1 c2 c3 d0 d1 d2 d3 : Z) :
  wf (mkGrid 4 [ [a0; a1; a2; a3]; [b0; b1; b2; b3];
                 [c0; c1; c2; c3]; [d0; d1; d2; d3] ]).
Proof. unfold wf. simpl. repeat split; repeat constructor. Qed.

Lemma in_board_cases (cell : Cell) :
  in_board cell ->
  exists x y, cell = (x, y) /\
    (x = 0 \/ x = 1 \/ x = 2 \/ x = 3)%nat /\
    (y = 0 \/ y = 1 \/ y = 2 \/ y = 3)%nat.
Proof.
  destruct cell as [x y]. intros [Hx Hy]. simpl in *.
  exists x, y. repeat split; lia.
Qed.

Lemma cellValue_in_board (grid : Grid) (x y : nat) (v : Z) :
  wf grid -> cellValue grid x y = Ok v -> in_board (x, y).
Proof.
  intros Hwf. grid_inv Hwf. unfold cellValue, in_board, index. simpl.
  destruct x as [|[|[|[|x]]]]; simpl; try discriminate;
    destruct y as [|[|[|[|y]]]]; simpl; try discriminate; intros _; lia.
Qed.

Lemma setCellValue_wf (grid : Grid) (cell : Cell) (value : Z) :
  wf grid -> in_board cell ->
  exists child, setCellValue grid cell value = Ok child /\ wf child.
Proof.
  intros Hwf Hc. grid_inv Hwf.
  destruct (in_board_cases _ Hc) as (x & y & -> & Hx & Hy).
  destruct Hx as [->|[->|[->| ->]]]; destruct Hy as [->|[->|[->| ->]]];
    (eexists; split; [reflexivity|apply wf_mk]).
Qed.

Lemma getCellSnakeImportance_ok {G : Type} (grid : G) (cell : Cell) :
  in_board cell -> exists w, getCellSnakeImportance grid cell = Ok w.
Proof.
  intros Hc. destruct (in_board_cases _ Hc) as (x & y & -> & Hx & Hy).
  destruct Hx as [->|[->|[->| ->]]]; destruct Hy as [->|[->|[->| ->]]];
    eexists; reflexivity.
Qed.

Lemma evaluate_ok (grid : Grid) :
  wf grid -> exists q, evaluate grid = Ok (Fin q).
Proof.
  intros Hwf. grid_inv Hwf. unfold evaluate.
  destruct (checkMaxTileInCorner _) as [corner|e] eqn:Hcorner.
  - eexists. reflexivity.
  - exfalso. revert Hcorner. unfold checkMaxTileInCorner. simpl.
    destruct (_ =? _); discriminate.
Qed.

(** ** Sorting *)

Lemma insert_desc_perm {A : Type} (ka : Z * A) (l : list (Z * A)) :
  insert_desc ka l ≡ₚ ka :: l.
Proof.
  induction l as [|kb l IH]; simpl; [reflexivity|].
  destruct (ka.1 <? kb.1); [|reflexivity].
  rewrite IH. apply perm_swap.
Qed.

Lemma sort_desc_perm {A : Type} (l : list (Z * A)) : sort_desc l ≡ₚ l.
Proof.
  induction l as [|ka l IH]; simpl; [reflexivity|].
  now rewrite insert_desc_perm, IH.
Qed.

Lemma insert_desc_sorted {A : Type} (ka : Z * A) (l : list (Z * A)) :
  StronglySorted desc l -> StronglySorted desc (insert_desc ka l).
Proof.
  induction 1 as [|kb l Hs IH Hb]; simpl.
  - repeat constructor.
  - destruct (ka.1 <? kb.1) eqn:E.
    + constructor; [assumption|].
      rewrite insert_desc_perm. constructor; [|assumption].
      unfold desc. lia.
    + constructor; [now constructor|].
      constructor; [unfold desc; lia|].
      eapply Forall_impl; [exact Hb|]. unfold desc. intros; simpl in *. lia.
Qed.

Lemma sort_desc_sorted {A : Type} (l : list (Z * A)) :
  StronglySorted desc (sort_desc l).
Proof.
  induction l as [|ka l IH]; simpl; [constructor|].
  now apply insert_desc_sorted.
Qed.

Lemma decorate_spec {A : Type} (key : A -> result Z) (l : list A)
    (kl : list (Z * A)) :
  decorate key l = Ok kl <->
  Forall2 (fun a ka => key a = Ok ka.1 /\ ka.2 = a) l kl.
Proof.
  revert kl. induction l as [|a l IH]; intros kl; simpl.
  - split.
    + intros [= <-]. constructor.
    + intros H. inversion H. reflexivity.
  - destruct (key a) as [k|e] eqn:Hk; simpl.
    + destruct (decorate key l) as [kl'|e] eqn:Hd; simpl.
      * split.
        -- intros [= <-]. constructor; [now split|]. now apply IH.
        -- intros H. inversion H as [|? [k' a'] ? kl'' [H1 H2] H3]; subst.
           simpl in *. apply IH in H3. congruence.
      * split; [discriminate|].
        intros H. inversion H as [|? ka ? kl'' _ H3]; subst.
        apply IH in H3. discriminate.
    + split; [discriminate|].
      intros H. inversion H as [|? ka ? kl'' [H1 _] _]; subst. congruence.
Qed.

(** ** Ranking the empty cells *)

Lemma importance_weightOf {G : Type} (grid : G) (cell : Cell) :
  in_board cell -> getCellSnakeImportance grid cell = Ok (weightOf cell).
Proof.
  intros Hc. destruct (in_board_cases _ Hc) as (x & y & -> & Hx & Hy).
  destruct Hx as [->|[->|[->| ->]]]; destruct Hy as [->|[->|[->| ->]]];
    reflexivity.
Qed.

Lemma weightOf_inj (c1 c2 : Cell) :
  in_board c1 -> in_board c2 -> weightOf c1 = weightOf c2 -> c1 = c2.
Proof.
  intros H1 H2.
  destruct (in_board_cases _ H1) as (x1 & y1 & -> & Hx1 & Hy1).
  destruct (in_board_cases _ H2) as (x2 & y2 & -> & Hx2 & Hy2).
  destruct Hx1 as [->|[->|[->| ->]]]; destruct Hy1 as [->|[->|[->| ->]]];
    destruct Hx2 as [->|[->|[->| ->]]]; destruct Hy2 as [->|[->|[->| ->]]];
    vm_compute; intros H; first [reflexivity | discriminate H].
Qed.

Lemma decorate_weightOf {G : Type} (grid : G) (cells : list Cell) :
  Forall in_board cells ->
  decorate (getCellSnakeImportance grid) cells =
  Ok ((fun c => (weightOf c, c)) <$> cells).
Proof.
  induction 1 as [|c cells Hc _ IH]; simpl; [reflexivity|].
  rewrite (importance_weightOf grid c Hc). simpl. now rewrite IH.
Qed.

Lemma sorted_snd (l : list (Z * Cell)) :
  Forall (fun kc => kc.1 = weightOf kc.2) l ->
  StronglySorted desc l -> StronglySorted heavier (snd <$> l).
Proof.
  intros Hl Hs. induction Hs as [|kc l Hs IH Hkc]; simpl; [constructor|].
  apply Forall_cons in Hl as [Hk Hl].
  constructor; [now apply IH|].
  apply Forall_fmap. apply Forall_forall. intros kc' Hin.
  rewrite Forall_forall in Hkc, Hl. specialize (Hkc _ Hin).
  specialize (Hl _ Hin). unfold heavier, desc in *. simpl. lia.
Qed.

Lemma sorted_reverse_rank {G : Type} (grid : G) (cells : list Cell) :
  Forall in_board cells ->
  exists ranked,
    sorted_reverse (getCellSnakeImportance grid) cells = Ok ranked /\
    ranked ≡ₚ cells /\ StronglySorted heavier ranked.
Proof.
  intros Hc. unfold sorted_reverse. rewrite (decorate_weightOf grid cells Hc).
  simpl. eexists. split; [reflexivity|]. split.
  - rewrite sort_desc_perm, <- list_fmap_compose.
    now rewrite list_fmap_id.
  - apply sorted_snd; [|apply sort_desc_sorted].
    rewrite sort_desc_perm. apply Forall_fmap, Forall_forall. now intros.
Qed.

Lemma heavier_unique (l1 l2 : list Cell) :
  Forall in_board l1 -> l1 ≡ₚ l2 ->
  StronglySorted heavier l1 -> StronglySorted heavier l2 -> l1 = l2.
Proof.
  intros Hb Hp H1 H2.
  apply (StronglySorted_unique_strong heavier); auto.
  intros c1 c2 Hc1 Hc2 Hle1 Hle2. rewrite Forall_forall in Hb.
  apply weightOf_inj; [auto|apply Hb; now rewrite Hp|].
  unfold heavier in *. lia.
Qed.

Lemma heavier_strict (l : list Cell) :
  Forall in_board l -> NoDup l -> StronglySorted heavier l ->
  StronglySorted (fun c1 c2 => weightOf c2 < weightOf c1) l.
Proof.
  intros Hb Hn Hs. induction Hs as [|c l Hs IH Hc]; [constructor|].
  apply Forall_cons in Hb as [Hbc Hb]. apply NoDup_cons in Hn as [Hnc Hn].
  constructor; [now apply IH|].
  apply Forall_forall. intros c' Hin.
  rewrite Forall_forall in Hc, Hb. specialize (Hc _ Hin).
  unfold heavier in Hc.
  destruct (Z.eq_dec (weightOf c') (weightOf c)) as [Heq|Hne]; [|lia].
  apply weightOf_inj in Heq; auto. now subst.
Qed.

Lemma getAvailableCells_in_board (grid : Grid) :
  wf grid -> Forall in_board (getAvailableCells grid).
Proof.
  intros Hwf. apply Forall_forall. intros [x y] Hin.
  apply (getAvailableCells_spec grid Hwf) in Hin.
  now apply (cellValue_in_board grid x y 0).
Qed.

Lemma rankCells_val_ok (grid : Grid) :
  wf grid ->
  exists ranked,
    sorted_reverse (getCellSnakeImportance grid) (getAvailableCells grid)
      = Ok ranked /\
    rankCells_val grid = Ok (take 4 ranked) /\
    ranked ≡ₚ getAvailableCells grid /\ StronglySorted heavier ranked.
Proof.
  intros Hwf.
  destruct (sorted_reverse_rank grid (getAvailableCells grid))
    as (ranked & Hs & Hp & Hsorted).
  { now apply getAvailableCells_in_board. }
  exists ranked. repeat split; auto.
  unfold rankCells_val. now rewrite Hs.
Qed.

Lemma rankCells_val_in_board (grid : Grid) (cells : list Cell) :
  wf grid -> rankCells_val grid = Ok cells -> Forall in_board cells.
Proof.
  intros Hwf Hr.
  destruct (rankCells_val_ok grid Hwf) as (ranked & _ & Hr' & Hp & _).
  rewrite Hr' in Hr. injection Hr as <-.
  apply Forall_take. rewrite Hp. now apply getAvailableCells_in_board.
Qed.

(** ** Pruned and unpruned search agree *)

Lemma ab_ok_refl (alpha beta v : pyfloat) : ab_ok alpha beta v v.
Proof. repeat split; auto using lef_refl. Qed.

Lemma leaf_ok (grid : Grid) :
  wf grid -> exists q, leaf grid = Ok (Fin q, None).
Proof.
  intros Hwf. destruct (evaluate_ok grid Hwf) as [q Hq].
  exists q. unfold leaf. now rewrite Hq.
Qed.

Lemma min_sound_prunes (depth : nat) (grid : Grid) :
  min_sound depth grid ->
  exists v, minimax_min depth grid = Ok (v, None) /\
            prunes (minimize_val depth) grid v.
Proof.
  intros (v & Hv & Hp). exists v. split; [assumption|].
  intros alpha beta Hw. destruct (Hp alpha beta Hw) as (r & Hr & Hab).
  now exists r, None.
Qed.

Lemma max_sound_prunes (depth : nat) (grid : Grid) :
  max_sound depth grid ->
  exists v mv, minimax_max depth grid = Ok (v, mv) /\
               prunes (maximize_val depth) grid v.
Proof.
  intros (v & mv & Hv & Hp). exists v, mv. split; [assumption|].
  intros alpha beta Hw. destruct (Hp alpha beta Hw) as (r & mr & Hr & Hab & _).
  now exists r, mr.
Qed.

Lemma scored_moves (depth : nat) (moves : list (Move * Grid)) :
  Forall (fun mc => min_sound depth mc.2) moves ->
  exists scored,
    mapM (fun '(move, child) => r ← minimax_min depth child; Ok (move, r.1))
         moves = Ok scored /\
    Forall2 (fun mc mv => mc.1 = mv.1 /\ prunes (minimize_val depth) mc.2 mv.2)
            moves scored.
Proof.
  induction 1 as [|[m c] moves Hc _ (scored & Hs & HF)]; simpl.
  - exists []. split; [reflexivity|constructor].
  - simpl in Hc. destruct (min_sound_prunes _ _ Hc) as (v & Hv & Hp).
    exists ((m, v) :: scored). split.
    + unfold mapM in *. simpl. rewrite Hv. simpl. rewrite Hs. reflexivity.
    + constructor; auto.
Qed.

Lemma placed_utilities (depth : nat) (grid : Grid) (ps : list (Cell * Z)) :
  wf grid -> Forall (fun p => in_board p.1) ps ->
  (forall child, wf child -> max_sound depth child) ->
  exists vs,
    mapM (fun '(cell, tile) =>
            child ← setCellValue grid cell tile;
            r ← minimax_max depth child; Ok r.1) ps = Ok vs /\
    Forall2 (fun p v => exists child,
               setCellValue grid p.1 p.2 = Ok child /\
               prunes (maximize_val depth) child v) ps vs.
Proof.
  intros Hwf Hps IH.
  induction Hps as [|[cell tile] ps Hc _ (vs & Hs & HF)]; simpl.
  - exists []. split; [reflexivity|constructor].
  - simpl in Hc.
    destruct (setCellValue_wf grid cell tile Hwf Hc) as (child & Hset & Hwc).
    destruct (max_sound_prunes _ _ (IH child Hwc)) as (v & mv & Hv & Hp).
    exists (v :: vs). split.
    + unfold mapM in *. simpl. rewrite Hset. simpl. rewrite Hv. simpl.
      rewrite Hs. reflexivity.
    + constructor; eauto.
Qed.

Lemma placements_in_board (cells : list Cell) :
  Forall in_board cells -> Forall (fun p => in_board p.1) (placements cells).
Proof.
  induction 1 as [|c cells Hc _ IH]; [constructor|].
  change (placements (c :: cells)) with ((c, 2) :: (c, 4) :: placements cells).
  constructor; [exact Hc|]. constructor; [exact Hc|]. exact IH.
Qed.

Lemma maximize_val_S (depth : nat) (grid : Grid) (alpha beta : pyfloat) :
  maximize_val (S depth) grid alpha beta =
  if negb (canMove grid) then leaf grid
  else max_loop_val (minimize_val depth) (getAvailableMoves grid)
                    alpha beta None NegInf.
Proof. reflexivity. Qed.

Lemma minimize_val_S (depth : nat) (grid : Grid) (alpha beta : pyfloat) :
  minimize_val (S depth) grid alpha beta =
  if negb (canMove grid) then leaf grid
  else emptyCells ← rankCells_val grid;
       minStateUtility ←
         min_cells_val (maximize_val depth) grid emptyCells alpha beta PosInf;
       Ok (minStateUtility, None).
Proof. reflexivity. Qed.

Lemma minimax_max_S (depth : nat) (grid : Grid) :
  minimax_max (S depth) grid =
  if negb (canMove grid) then leaf grid
  else scored ← mapM (fun '(move, child) =>
                        r ← minimax_min depth child; Ok (move, r.1))
                     (getAvailableMoves grid);
       Ok (best_of scored).
Proof. reflexivity. Qed.

Lemma minimax_min_S (depth : nat) (grid : Grid) :
  minimax_min (S depth) grid =
  if negb (canMove grid) then leaf grid
  else cells ← rankCells_val grid;
       utilities ← mapM (fun '(cell, tile) =>
                           child ← setCellValue grid cell tile;
                           r ← minimax_max depth child; Ok r.1)
                        (placements cells);
       Ok (least_of utilities, None).
Proof. reflexivity. Qed.

Lemma search_sound (depth : nat) :
  (forall grid, wf grid -> max_sound depth grid) /\
  (forall grid, wf grid -> min_sound depth grid).
Proof.
  induction depth as [|depth [IHmax IHmin]].
  - split; intros grid Hwf; destruct (leaf_ok grid Hwf) as [q Hq].
    + exists (Fin q), None. split; [exact Hq|].
      intros alpha beta _. exists (Fin q), None.
      split; [exact Hq|]. split; [apply ab_ok_refl|reflexivity].
    + exists (Fin q). split; [exact Hq|].
      intros alpha beta _. exists (Fin q).
      split; [exact Hq|apply ab_ok_refl].
  - split; intros grid Hwf; destruct (leaf_ok grid Hwf) as [q Hq].
    + unfold max_sound. rewrite minimax_max_S.
      setoid_rewrite maximize_val_S.
      destruct (canMove grid) eqn:Hmv; simpl.
      2:{ exists (Fin q), None. split; [exact Hq|].
          intros alpha beta _. exists (Fin q), None.
          split; [exact Hq|]. split; [apply ab_ok_refl|reflexivity]. }
      destruct (scored_moves depth (getAvailableMoves grid))
        as (scored & Hs & HF).
      { apply Forall_forall. intros [m c] Hin. apply IHmin.
        now apply (getAvailableMoves_wf grid m c). }
      rewrite Hs. simpl.
      destruct (best_of scored) as [v mv] eqn:Hbest.
      exists v, mv. split; [reflexivity|].
      intros alpha beta Hw.
      assert (ltf alpha NegInf \/ alpha = NegInf ->
              NegInf = NegInf /\ @None Move = None) as HE by now split.
      assert (lef NegInf alpha -> lef NegInf NegInf /\ lef NegInf alpha)
        as HL by (split; auto using lef_refl, NegInf_le).
      destruct (max_loop_sound _ _ _ HF alpha alpha beta NegInf None
                  NegInf None Hw (lef_refl _) (NegInf_le _)
                  (or_introl (lef_refl _)) (NegInf_le _) HE HL)
        as (R & mR & HR & Hab & Hmove).
      fold (best_of scored) in Hab, Hmove. rewrite Hbest in Hab, Hmove.
      exists R, mR. auto.
    + unfold min_sound. rewrite minimax_min_S.
      setoid_rewrite minimize_val_S.
      destruct (canMove grid) eqn:Hmv; simpl.
      2:{ exists (Fin q). split; [exact Hq|].
          intros alpha beta _. exists (Fin q).
          split; [exact Hq|apply ab_ok_refl]. }
      destruct (rankCells_val_ok grid Hwf) as (ranked & _ & Hr & _ & _).
      rewrite Hr. simpl.
      destruct (placed_utilities depth grid (placements (take 4 ranked)))
        as (vs & Hs & HF); auto.
      { apply placements_in_board.
        now apply (rankCells_val_in_board grid). }
      rewrite Hs. simpl.
      exists (least_of vs). split; [reflexivity|].
      intros alpha beta Hw. rewrite min_cells_flat.
      assert (ltf PosInf beta -> PosInf = PosInf) as HE by reflexivity.
      assert (lef beta PosInf -> lef beta PosInf /\ lef PosInf PosInf)
        as HL by (split; auto using lef_refl, lef_PosInf_r).
      destruct (min_flat_sound _ _ _ _ HF alpha beta beta PosInf PosInf
                  Hw (lef_refl _) (lef_PosInf_r _)
                  (or_introl (lef_refl _)) (lef_PosInf_r _) HE HL)
        as (R & HR & Hab).
      rewrite HR. simpl. exists R. auto.
Qed.

(** ** Running the search on the store *)

Lemma run_bind {A B : Type} (m : M A) (f : A -> M B) (s : state) :
  (m ≫= f) s =
  match m s with
  | (Ok a, s') => f a s'
  | (Raise e, s') => (Raise e, s')
  end.
Proof. reflexivity. Qed.

Lemma run_deref (l : loc) (g : Grid) (s : state) :
  heap s !! l = Some g -> deref l s = (Ok g, s).
Proof. unfold deref. now intros ->. Qed.

Lemma run_evaluate (l : loc) (g : Grid) (s : state) :
  heap s !! l = Some g ->
  (u ← grid_evaluate l; mret (u, @None Move)) s = (leaf g, s).
Proof.
  intros H. unfold grid_evaluate. rewrite !run_bind, (run_deref l g s H).
  unfold lift, leaf. now destruct (evaluate g).
Qed.

Lemma maximize_O (l : loc) (g : Grid) (alpha beta : pyfloat) (start : Q)
    (s : state) :
  heap s !! l = Some g -> maximize 0 l alpha beta start s = (leaf g, s).
Proof. intros H. simpl. now apply run_evaluate. Qed.

Lemma minimize_O (l : loc) (g : Grid) (alpha beta : pyfloat) (start : Q)
    (s : state) :
  heap s !! l = Some g -> minimize 0 l alpha beta start s = (leaf g, s).
Proof. intros H. simpl. now apply run_evaluate. Qed.

Lemma maximize_S (depth : nat) (l : loc) (g : Grid) (alpha beta : pyfloat)
    (start : Q) (s : state) :
  heap s !! l = Some g ->
  maximize (S depth) l alpha beta start s =
  if negb (canMove g) then (leaf g, s)
  else if expired start (ticks s) then (Raise TimeoutError, tick s)
  else (moves ← grid_getAvailableMoves l;
        max_loop (fun child alpha beta =>
                    minimize depth child alpha beta start)
                 moves alpha beta None NegInf) (tick s).
Proof.
  intros H.
  change (maximize (S depth) l alpha beta start)
    with (movable ← grid_canMove l;
          if negb movable then u ← grid_evaluate l; mret (u, @None Move)
          else
            t ← time_time;
            if Qle_bool playerMoveTimeLimit (t - start)
            then raise TimeoutError
            else
              moves ← grid_getAvailableMoves l;
              max_loop (fun child alpha beta =>
                          minimize depth child alpha beta start)
                       moves alpha beta None NegInf).
  unfold grid_canMove at 1. rewrite !run_bind, (run_deref l g s H).
  change ((mret (canMove g) : M bool) s) with (Ok (canMove g), s).
  cbv iota beta.
  destruct (canMove g); cbv [negb].
  - rewrite run_bind. unfold time_time at 1. cbv iota beta.
    fold (tick s). fold (expired start (ticks s)).
    now destruct (expired start (ticks s)).
  - now apply run_evaluate.
Qed.

Lemma minimize_S (depth : nat) (l : loc) (g : Grid) (alpha beta : pyfloat)
    (start : Q) (s : state) :
  heap s !! l = Some g ->
  minimize (S depth) l alpha beta start s =
  if negb (canMove g) then (leaf g, s)
  else if expired start (ticks s) then (Raise TimeoutError, tick s)
  else (emptyCells ← rankCells l;
        minStateUtility ←
          min_cells (fun child alpha beta =>
                       maximize depth child alpha beta start)
                    l emptyCells alpha beta PosInf;
        mret (minStateUtility, None)) (tick s).
Proof.
  intros H.
  change (minimize (S depth) l alpha beta start)
    with (movable ← grid_canMove l;
          if negb movable then u ← grid_evaluate l; mret (u, @None Move)
          else
            t ← time_time;
            if Qle_bool playerMoveTimeLimit (t - start)
            then raise TimeoutError
            else
              emptyCells ← rankCells l;
              minStateUtility ←
                min_cells (fun child alpha beta =>
                             maximize depth child alpha beta start)
                          l emptyCells alpha beta PosInf;
              mret (minStateUtility, None)).
  unfold grid_canMove at 1. rewrite !run_bind, (run_deref l g s H).
  change ((mret (canMove g) : M bool) s) with (Ok (canMove g), s).
  cbv iota beta.
  destruct (canMove g); cbv [negb].
  - rewrite run_bind. unfold time_time at 1. cbv iota beta.
    fold (tick s). fold (expired start (ticks s)).
    now destruct (expired start (ticks s)).
  - now apply run_evaluate.
Qed.

Lemma clean_refl (start : Q) (s : state) : clean start s s.
Proof. repeat split; auto. intros k Hk. lia. Qed.

Lemma clean_trans (start : Q) (s1 s2 s3 : state) :
  clean start s1 s2 -> clean start s2 s3 -> clean start s1 s3.
Proof.
  intros (Hp1 & Ht1 & Hc1) (Hp2 & Ht2 & Hc2). repeat split.
  - now transitivity (heap s2).
  - lia.
  - intros k Hk. destruct (Nat.lt_ge_cases k (ticks s2)).
    + apply Hc1. lia.
    + apply Hc2. lia.
Qed.

Lemma clean_timed_out (start : Q) (s1 s2 s3 : state) :
  clean start s1 s2 -> timed_out start s2 s3 -> timed_out start s1 s3.
Proof.
  intros (Hp1 & Ht1 & Hc1) (Hp2 & Ht2 & He & Hc2). repeat split.
  - now transitivity (heap s2).
  - lia.
  - assumption.
  - intros k Hk. destruct (Nat.lt_ge_cases k (ticks s2)).
    + apply Hc1. lia.
    + apply Hc2. lia.
Qed.

Lemma clean_tick (start : Q) (s : state) :
  expired start (ticks s) = false -> clean start s (tick s).
Proof.
  intros He. repeat split; simpl; auto.
  intros k Hk. now replace k with (ticks s) by lia.
Qed.

Lemma timed_out_tick (start : Q) (s : state) :
  expired start (ticks s) = true -> timed_out start s (tick s).
Proof.
  intros He. repeat split; simpl; auto. intros k Hk. lia.
Qed.

Lemma runs_as_clean {A : Type} (start : Q) (s : state) (rv : result A) :
  runs_as start s (rv, s) rv.
Proof. left. split; [reflexivity|apply clean_refl]. Qed.

Lemma runs_as_after {A : Type} (start : Q) (s s1 : state)
    (out : result A * state) (rv : result A) :
  clean start s s1 -> runs_as start s1 out rv -> runs_as start s out rv.
Proof.
  intros Hc [[Hr Hc']|[Hr Ht]]; [left|right]; split; auto.
  - eapply clean_trans; eauto.
  - eapply clean_timed_out; eauto.
Qed.

Lemma clean_lookup (start : Q) (s s' : state) (l : loc) (g : Grid) :
  clean start s s' -> heap s !! l = Some g -> heap s' !! l = Some g.
Proof. intros (Hp & _) H. now apply (prefix_lookup_Some (heap s)). Qed.

(** Sequencing: the first part of a run gave [ra] for the clock-free [rva];
    if it is a value the rest runs as [k], an exception ends the run. *)
Lemma runs_as_bind {A B : Type} (start : Q) (s : state) (m : M A)
    (f : A -> M B) (rva : result A) (fv : A -> result B) :
  runs_as start s (m s) rva ->
  (forall a s1, m s = (Ok a, s1) -> rva = Ok a -> clean start s s1 ->
                runs_as start s1 (f a s1) (fv a)) ->
  runs_as start s ((m ≫= f) s) (rva ≫= fv).
Proof.
  intros Hm Hk. rewrite run_bind.
  destruct (m s) as [[a|e] s1] eqn:Hms; simpl in Hm.
  - destruct Hm as [[<- Hc]|[Hr _]]; [|discriminate].
    eapply runs_as_after; [exact Hc|]. now apply Hk.
  - destruct Hm as [[<- Hc]|[Hr Ht]].
    + left. split; [reflexivity|exact Hc].
    + right. simpl in Hr. injection Hr as ->. split; [reflexivity|exact Ht].
Qed.

Lemma run_alloc_moves (moves : list (Move * Grid)) (s : state) :
  exists locs,
    alloc_moves moves s =
      (Ok locs, mkState (heap s ++ (snd <$> moves)) (ticks s)) /\
    Forall2 (fun ml mg => ml.1 = mg.1 /\
                          (heap s ++ (snd <$> moves)) !! ml.2 = Some mg.2)
            locs moves.
Proof.
  revert s. induction moves as [|[m g] moves IH]; intros s.
  - exists []. simpl. rewrite app_nil_r. destruct s. split; [reflexivity|].
    constructor.
  - destruct (IH (mkState (heap s ++ [g]) (ticks s))) as (locs & Hrun & HF).
    simpl in Hrun, HF. rewrite <- app_assoc in Hrun, HF. simpl in Hrun, HF.
    exists ((m, length (heap s)) :: locs). split.
    + change (alloc_moves ((m, g) :: moves))
        with (l ← alloc g; rest ← alloc_moves moves;
              (mret ((m, l) :: rest) : M (list (Move * loc)))).
      rewrite run_bind. unfold alloc at 1. cbv iota beta.
      rewrite run_bind, Hrun. reflexivity.
    + constructor; [|exact HF]. simpl. split; [reflexivity|].
      now rewrite list_lookup_middle.
Qed.

Lemma run_getAvailableMoves (start : Q) (l : loc) (g : Grid) (s : state) :
  heap s !! l = Some g ->
  exists locs s',
    grid_getAvailableMoves l s = (Ok locs, s') /\ clean start s s' /\
    Forall2 (fun ml mg => ml.1 = mg.1 /\ heap s' !! ml.2 = Some mg.2)
            locs (getAvailableMoves g).
Proof.
  intros H. destruct (run_alloc_moves (getAvailableMoves g) s)
    as (locs & Hrun & HF).
  exists locs, (mkState (heap s ++ (snd <$> getAvailableMoves g)) (ticks s)).
  split; [|split].
  - unfold grid_getAvailableMoves. now rewrite run_bind, (run_deref l g s H).
  - repeat split; simpl; auto.
    + now apply prefix_app_r.
    + intros k Hk. lia.
  - exact HF.
Qed.

Lemma max_loop_runs (start : Q) (chance : search) (chance_val : search_val) :
  (forall child g alpha beta s,
     heap s !! child = Some g ->
     runs_as start s (chance child alpha beta s) (chance_val g alpha beta)) ->
  forall locs moves s alpha beta mm mu,
    Forall2 (fun ml mg => ml.1 = mg.1 /\ heap s !! ml.2 = Some mg.2)
            locs moves ->
    runs_as start s (max_loop chance locs alpha beta mm mu s)
            (max_loop_val chance_val moves alpha beta mm mu).
Proof.
  intros Hch locs.
  induction locs as [|[m child] locs IH];
    intros moves s alpha beta mm mu HF; inversion HF as [|? [m' g] ? moves' [Hm Hg] HF']; subst.
  - apply runs_as_clean.
  - simpl in Hm, Hg. subst m'. simpl.
    apply runs_as_bind; [now apply Hch|].
    intros [u x] s1 _ _ Hc.
    destruct (flt mu u); simpl;
      (destruct (fle beta (fmax alpha u));
       [apply runs_as_clean|apply IH]);
      (eapply Forall2_impl; [exact HF'|]);
      intros ml mg [H1 H2]; (split; [exact H1|]);
      now apply (clean_lookup start s s1).
Qed.

Lemma insert_last (h : list Grid) (g g' : Grid) :
  <[length h := g']> (h ++ [g]) = h ++ [g'].
Proof. induction h as [|a h IH]; simpl; [reflexivity|]. now rewrite IH. Qed.

Lemma run_clone_set {A : Type} (l : loc) (g : Grid) (cell : Cell) (v : Z)
    (k : loc -> M A) (s : state) :
  heap s !! l = Some g ->
  (child ← grid_clone l; _ ← grid_setCellValue child cell v; k child) s =
  match setCellValue g cell v with
  | Ok g' => k (length (heap s)) (mkState (heap s ++ [g']) (ticks s))
  | Raise e => (Raise e, mkState (heap s ++ [g]) (ticks s))
  end.
Proof.
  intros H. unfold grid_clone, grid_setCellValue.
  rewrite !run_bind, (run_deref l g s H). unfold alloc at 1.
  rewrite !run_bind.
  rewrite (run_deref (length (heap s)) g).
  2:{ simpl. now rewrite list_lookup_middle. }
  rewrite !run_bind. unfold lift at 1.
  destruct (setCellValue g cell v) as [g'|e]; [|reflexivity].
  unfold store. simpl. now rewrite insert_last.
Qed.

Lemma min_tiles_runs (start : Q) (maximize : search)
    (maximize_val : search_val) :
  (forall child g alpha beta s,
     heap s !! child = Some g ->
     runs_as start s (maximize child alpha beta s) (maximize_val g alpha beta)) ->
  forall tiles l g cell s alpha beta mu,
    heap s !! l = Some g ->
    runs_as start s (min_tiles maximize l cell tiles alpha beta mu s)
            (min_tiles_val maximize_val g cell tiles alpha beta mu).
Proof.
  intros Hmax tiles.
  induction tiles as [|[tile p] tiles IH]; intros l g cell s alpha beta mu H.
  - apply runs_as_clean.
  - simpl. rewrite (run_clone_set l g cell tile _ s H).
    assert (forall g', clean start s (mkState (heap s ++ [g']) (ticks s)))
      as Hc.
    { intros g'. repeat split; simpl; auto.
      - now apply prefix_app_r.
      - intros k Hk. lia. }
    destruct (setCellValue g cell tile) as [g'|e]; simpl.
    2:{ left. split; [reflexivity|apply Hc]. }
    eapply runs_as_after; [apply Hc|].
    apply runs_as_bind.
    { apply Hmax. simpl. now rewrite list_lookup_middle. }
    intros [u x] s1 _ _ Hc1. simpl.
    destruct (fle (fmin beta u) alpha); [apply runs_as_clean|].
    apply IH. apply (clean_lookup start _ s1 l g Hc1). simpl.
    now apply lookup_app_l_Some.
Qed.

Lemma min_cells_runs (start : Q) (maximize : search)
    (maximize_val : search_val) :
  (forall child g alpha beta s,
     heap s !! child = Some g ->
     runs_as start s (maximize child alpha beta s) (maximize_val g alpha beta)) ->
  forall cells l g s alpha beta mu,
    heap s !! l = Some g ->
    runs_as start s (min_cells maximize l cells alpha beta mu s)
            (min_cells_val maximize_val g cells alpha beta mu).
Proof.
  intros Hmax cells.
  induction cells as [|cell cells IH]; intros l g s alpha beta mu H.
  - apply runs_as_clean.
  - cbn [min_cells min_cells_val].
    apply runs_as_bind; [now apply min_tiles_runs|].
    intros [mu' beta'] s1 _ _ Hc. cbv iota beta.
    destruct (fle beta' alpha); [apply runs_as_clean|].
    apply IH. now apply (clean_lookup start s s1).
Qed.

Lemma run_rankCells (l : loc) (g : Grid) (s : state) :
  heap s !! l = Some g -> rankCells l s = (rankCells_val g, s).
Proof.
  intros H. unfold rankCells, grid_getAvailableCells, rankCells_val.
  rewrite !run_bind, (run_deref l g s H). simpl. rewrite run_bind.
  unfold lift.
  change (sorted_reverse (getCellSnakeImportance l) (getAvailableCells g))
    with (sorted_reverse (getCellSnakeImportance g) (getAvailableCells g)).
  now destruct (sorted_reverse _ _).
Qed.

(** The run of the search on the store ends as the search on boards says,
    unless the clock cuts it short. *)
Lemma search_runs (start : Q) (depth : nat) :
  (forall l g alpha beta s,
     heap s !! l = Some g ->
     runs_as start s (maximize depth l alpha beta start s)
             (maximize_val depth g alpha beta)) /\
  (forall l g alpha beta s,
     heap s !! l = Some g ->
     runs_as start s (minimize depth l alpha beta start s)
             (minimize_val depth g alpha beta)).
Proof.
  induction depth as [|depth [IHmax IHmin]].
  - split; intros l g alpha beta s H.
    + rewrite (maximize_O l g alpha beta start s H). apply runs_as_clean.
    + rewrite (minimize_O l g alpha beta start s H). apply runs_as_clean.
  - split; intros l g alpha beta s H.
    + rewrite (maximize_S depth l g alpha beta start s H), maximize_val_S.
      destruct (negb (canMove g)); [apply runs_as_clean|].
      destruct (expired start (ticks s)) eqn:He.
      { right. split; [reflexivity|now apply timed_out_tick]. }
      eapply runs_as_after; [now apply clean_tick|].
      rewrite run_bind.
      destruct (run_getAvailableMoves start l g (tick s) H)
        as (locs & s' & -> & Hc & HF).
      eapply runs_as_after; [exact Hc|].
      now apply max_loop_runs.
    + rewrite (minimize_S depth l g alpha beta start s H), minimize_val_S.
      destruct (negb (canMove g)); [apply runs_as_clean|].
      destruct (expired start (ticks s)) eqn:He.
      { right. split; [reflexivity|now apply timed_out_tick]. }
      eapply runs_as_after; [now apply clean_tick|].
      rewrite run_bind, (run_rankCells l g (tick s) H).
      destruct (rankCells_val g) as [cells|e]; [|apply runs_as_clean].
      simpl.
      apply runs_as_bind; [now apply min_cells_runs|].
      intros mu s1 _ _ _. apply runs_as_clean.
Qed.

(** ** The clock-free search never raises [TimeoutError] *)

Lemma quiet_Ok {A : Type} (a : A) : quiet (Ok a).
Proof. discriminate. Qed.

Lemma quiet_bind {A B : Type} (r : result A) (f : A -> result B) :
  quiet r -> (forall a, quiet (f a)) -> quiet (r ≫= f).
Proof.
  intros Hr Hf. destruct r as [a|e]; [apply Hf|].
  intros H. apply Hr. injection H as ->. reflexivity.
Qed.

Lemma quiet_index {A : Type} (l : list A) (i : nat) : quiet (index l i).
Proof. unfold index. destruct (l !! i); discriminate. Qed.

Lemma quiet_cellValue (grid : Grid) (x y : nat) : quiet (cellValue grid x y).
Proof. apply quiet_bind; [apply quiet_index|intros; apply quiet_index]. Qed.

Lemma quiet_for_in {A S : Type} (l : list A) (body : A -> S -> result S) :
  (forall a s, quiet (body a s)) -> forall s, quiet (for_in l body s).
Proof.
  intros Hb. induction l as [|a l IH]; intros s; simpl; [apply quiet_Ok|].
  apply quiet_bind; auto.
Qed.

Create HintDb quiet.
#[local] Hint Resolve quiet_Ok quiet_index quiet_cellValue : quiet.

Lemma quiet_calcSnakeAdherence (grid : Grid) : quiet (calcSnakeAdherence grid).
Proof.
  apply quiet_for_in. intros x s. apply quiet_for_in. intros y s'.
  repeat (apply quiet_bind; [auto with quiet|intros]). apply quiet_Ok.
Qed.

Lemma quiet_calcSmoothness (grid : Grid) : quiet (calcSmoothness grid).
Proof.
  apply quiet_for_in. intros x s. apply quiet_for_in. intros y s'.
  apply quiet_bind; [auto with quiet|intros current].
  apply quiet_bind.
  - destruct (_ <? _)%nat; [|apply quiet_Ok].
    apply quiet_bind; [auto with quiet|intros; apply quiet_Ok].
  - intros s''. destruct (_ <? _)%nat; [|apply quiet_Ok].
    apply quiet_bind; [auto with quiet|intros; apply quiet_Ok].
Qed.

Lemma quiet_checkMaxTileInCorner (grid : Grid) :
  quiet (checkMaxTileInCorner grid).
Proof.
  apply quiet_bind.
  - unfold pymax. destruct (concat _); discriminate.
  - intros m. apply quiet_bind; [auto with quiet|intros t].
    destruct (_ =? _); apply quiet_Ok.
Qed.

Lemma quiet_evaluate (grid : Grid) : quiet (evaluate grid).
Proof.
  apply quiet_bind; [apply quiet_calcSnakeAdherence|intros snake].
  apply quiet_bind; [apply quiet_calcSmoothness|intros smooth].
  apply quiet_bind; [apply quiet_checkMaxTileInCorner|intros corner].
  apply quiet_Ok.
Qed.

Lemma quiet_leaf (grid : Grid) : quiet (leaf grid).
Proof. apply quiet_bind; [apply quiet_evaluate|intros; apply quiet_Ok]. Qed.

Lemma quiet_setCellValue (grid : Grid) (cell : Cell) (v : Z) :
  quiet (setCellValue grid cell v).
Proof.
  destruct cell as [x y].
  apply quiet_bind; [apply quiet_index|intros row].
  apply quiet_bind; [apply quiet_index|intros; apply quiet_Ok].
Qed.

Lemma quiet_decorate {A : Type} (key : A -> result Z) (l : list A) :
  (forall a, quiet (key a)) -> quiet (decorate key l).
Proof.
  intros Hk. induction l as [|a l IH]; simpl; [apply quiet_Ok|].
  apply quiet_bind; [apply Hk|intros k].
  apply quiet_bind; [apply IH|intros; apply quiet_Ok].
Qed.

Lemma quiet_rankCells_val (grid : Grid) : quiet (rankCells_val grid).
Proof.
  apply quiet_bind; [|intros; apply quiet_Ok].
  apply quiet_bind; [|intros; apply quiet_Ok].
  apply quiet_decorate. intros [x y].
  apply quiet_bind; [apply quiet_index|intros; apply quiet_index].
Qed.

Lemma quiet_max_loop_val (chance : search_val) (moves : list (Move * Grid)) :
  (forall g alpha beta, quiet (chance g alpha beta)) ->
  forall alpha beta mm mu, quiet (max_loop_val chance moves alpha beta mm mu).
Proof.
  intros Hc. induction moves as [|[m c] moves IH]; intros alpha beta mm mu;
    simpl; [apply quiet_Ok|].
  apply quiet_bind; [apply Hc|intros [u x]].
  destruct (flt mu u); simpl; destruct (fle _ _); auto using quiet_Ok.
Qed.

Lemma quiet_min_tiles_val (maximize : search_val) (grid : Grid) (cell : Cell)
    (tiles : list (Z * Q)) :
  (forall g alpha beta, quiet (maximize g alpha beta)) ->
  forall alpha beta mu,
    quiet (min_tiles_val maximize grid cell tiles alpha beta mu).
Proof.
  intros Hm. induction tiles as [|[tile p] tiles IH]; intros alpha beta mu;
    simpl; [apply quiet_Ok|].
  apply quiet_bind; [apply quiet_setCellValue|intros child].
  apply quiet_bind; [apply Hm|intros [u x]].
  destruct (fle _ _); auto using quiet_Ok.
Qed.

Lemma quiet_min_cells_val (maximize : search_val) (grid : Grid)
    (cells : list Cell) :
  (forall g alpha beta, quiet (maximize g alpha beta)) ->
  forall alpha beta mu,
    quiet (min_cells_val maximize grid cells alpha beta mu).
Proof.
  intros Hm. induction cells as [|cell cells IH]; intros alpha beta mu;
    [apply quiet_Ok|].
  cbn [min_cells_val].
  apply quiet_bind; [now apply quiet_min_tiles_val|intros [mu' beta']].
  destruct (fle _ _); auto using quiet_Ok.
Qed.

Lemma quiet_search (depth : nat) :
  (forall g alpha beta, quiet (maximize_val depth g alpha beta)) /\
  (forall g alpha beta, quiet (minimize_val depth g alpha beta)).
Proof.
  induction depth as [|depth [IHmax IHmin]].
  - split; intros; apply quiet_leaf.
  - split; intros g alpha beta.
    + rewrite maximize_val_S. destruct (negb _); [apply quiet_leaf|].
      now apply quiet_max_loop_val.
    + rewrite minimize_val_S. destruct (negb _); [apply quiet_leaf|].
      apply quiet_bind; [apply quiet_rankCells_val|intros cells].
      apply quiet_bind; [now apply quiet_min_cells_val|intros].
      apply quiet_Ok.
Qed.

(** * The claims *)

(** C4. A maximizing node that is terminal, at depth 0 or on a board
    without a legal move, returns [(evaluate(board), None)] at once: the
    store and the clock are as before the call, so no move was enumerated, no
    board created and the clock was not read. This holds whatever
    [getAvailableMoves] would have produced. *)
Theorem maximize_terminal (depth : nat) (grid : loc) (board : Grid)
    (alpha beta : pyfloat) (moveStartTime : Q) (s : state) :
  heap s !! grid = Some board ->
  depth = 0%nat \/ canMove board = false ->
  maximize depth grid alpha beta moveStartTime s =
    (u ← evaluate board; Ok (u, None), s).
Proof.
  intros H [-> | Hmv].
  - now apply maximize_O.
  - destruct depth; [now apply maximize_O|].
    rewrite (maximize_S depth grid board alpha beta moveStartTime s H), Hmv.
    reflexivity.
Qed.

(** C9. In [maximize] and in [minimize] the terminal test comes before the
    clock test. A terminal node returns [(evaluate(board), None)] without
    reading the clock, whatever the time. A node that is not terminal reads
    the clock once: if the budget is reached it raises [TimeoutError] there,
    else it goes on to its loop. So the node itself raises [TimeoutError],
    one reading after its call, exactly when it is not terminal and the
    elapsed time has reached the budget. *)
Theorem timeout_after_terminal_test (depth : nat) (grid : loc) (board : Grid)
    (alpha beta : pyfloat) (moveStartTime : Q) (s : state) :
  heap s !! grid = Some board ->
  let terminal := depth = 0%nat \/ canMove board = false in
  let late := expired moveStartTime (ticks s) = true in
  (terminal ->
   maximize depth grid alpha beta moveStartTime s =
     (u ← evaluate board; Ok (u, None), s) /\
   minimize depth grid alpha beta moveStartTime s =
     (u ← evaluate board; Ok (u, None), s)) /\
  (maximize depth grid alpha beta moveStartTime s =
     (Raise TimeoutError, tick s) <-> ~ terminal /\ late) /\
  (minimize depth grid alpha beta moveStartTime s =
     (Raise TimeoutError, tick s) <-> ~ terminal /\ late).
Proof.
  intros H terminal late. subst terminal late.
  assert (forall r : result (pyfloat * option Move),
            (r, s) <> (Raise TimeoutError, tick s)) as Hs.
  { intros r Heq. injection Heq as _ Heq.
    apply (f_equal ticks) in Heq. simpl in Heq. lia. }
  destruct depth as [|depth].
  - rewrite (maximize_O grid board alpha beta moveStartTime s H),
      (minimize_O grid board alpha beta moveStartTime s H).
    split; [intros _; split; reflexivity|].
    split; (split; [intros Heq; now apply Hs in Heq|intros [Hn _]; tauto]).
  - rewrite (maximize_S depth grid board alpha beta moveStartTime s H),
      (minimize_S depth grid board alpha beta moveStartTime s H).
    destruct (canMove board) eqn:Hmv; simpl.
    2:{ split; [intros _; split; reflexivity|].
        split; (split; [intros Heq; now apply Hs in Heq|intros [Hn _]; tauto]). }
    split; [intros [Hd|Hd]; discriminate|].
    destruct (expired moveStartTime (ticks s)) eqn:He.
    { split; (split; [intros _; split; [intros [?|?]; discriminate|reflexivity]
                     |reflexivity]). }
    assert (forall (A : Type) (out : result A * state) rv,
              runs_as moveStartTime (tick s) out rv -> quiet rv ->
              out <> (Raise TimeoutError, tick s)) as Hgo.
    { intros A out rv [[Hr Hc]|[Hr (_ & Ht & _)]] Hq Heq; subst out;
        simpl in *.
      - subst rv. now apply Hq.
      - lia. }
    split; (split; [|intros [_ Hl]; discriminate]); intros Heq; exfalso.
    + revert Heq. rewrite run_bind.
      destruct (run_getAvailableMoves moveStartTime grid board (tick s) H)
        as (locs & s' & -> & Hc & HF).
      destruct (search_runs moveStartTime depth) as [_ Hmin].
      pose proof (max_loop_runs moveStartTime _ _ Hmin locs _ s' alpha beta
                    None NegInf HF) as Hrun.
      apply (Hgo _ _ _ (runs_as_after _ _ _ _ _ Hc Hrun)).
      apply quiet_max_loop_val, quiet_search.
    + revert Heq. rewrite run_bind, (run_rankCells grid board (tick s) H).
      destruct (rankCells_val board) as [cells|e] eqn:Hrank.
      2:{ intros Heq. injection Heq as ->.
          now apply (quiet_rankCells_val board). }
      destruct (search_runs moveStartTime depth) as [Hmax _].
      pose proof (min_cells_runs moveStartTime _ _ Hmax cells grid board
                    (tick s) alpha beta PosInf H) as Hrun.
      rewrite run_bind.
      destruct (min_cells _ _ _ _ _ _ _) as [[mu|e] s1] eqn:Hcells.
      * intros Heq. discriminate.
      * intros Heq. injection Heq as -> ->.
        apply (Hgo _ _ _ Hrun); [|reflexivity].
        apply quiet_min_cells_val, quiet_search.
Qed.

Lemma ab_ok_full (v r : pyfloat) : ab_ok NegInf PosInf v r -> r = v.
Proof.
  intros (H1 & H2 & H3).
  destruct (ltf_or_le NegInf v) as [Hlo|Hlo];
    [destruct (ltf_or_le v PosInf) as [Hhi|Hhi]|].
  - now apply H1.
  - destruct (H3 Hhi) as [Hr _].
    apply lef_PosInf in Hr, Hhi. congruence.
  - destruct (H2 Hlo) as [_ Hr].
    apply lef_NegInf in Hr, Hlo. congruence.
Qed.

Lemma ltf_NegInf_PosInf : ltf NegInf PosInf.
Proof. reflexivity. Qed.

Lemma runs_in_time {A : Type} (start : Q) (s : state)
    (out : result A * state) (rv : result A) :
  (forall k, expired start k = false) ->
  runs_as start s out rv -> out = (rv, out.2).
Proof.
  intros Hnever [[Hr _]|[_ (_ & _ & He & _)]].
  - destruct out. simpl in *. now subst.
  - rewrite Hnever in He. discriminate.
Qed.

Lemma full_window_search (depth : nat) (grid : loc) (board : Grid)
    (moveStartTime : Q) (s : state) :
  wf board ->
  heap s !! grid = Some board ->
  (forall k, expired moveStartTime k = false) ->
  (exists utility move s',
     minimax_max depth board = Ok (utility, move) /\
     maximize depth grid NegInf PosInf moveStartTime s
       = (Ok (utility, move), s')) /\
  (exists utility s',
     minimax_min depth board = Ok (utility, None) /\
     minimize depth grid NegInf PosInf moveStartTime s
       = (Ok (utility, None), s')).
Proof.
  intros Hwf H Hnever.
  destruct (search_sound depth) as [Hmax Hmin].
  destruct (search_runs moveStartTime depth) as [Rmax Rmin].
  split.
  - destruct (Hmax board Hwf) as (v & mv & Hv & Hp).
    destruct (Hp NegInf PosInf ltf_NegInf_PosInf) as (r & mr & Hr & _ & Heq).
    rewrite Heq in Hr by (right; now split).
    exists v, mv. eexists. split; [exact Hv|].
    rewrite <- Hr. apply (runs_in_time moveStartTime s); auto.
  - destruct (Hmin board Hwf) as (v & Hv & Hp).
    destruct (Hp NegInf PosInf ltf_NegInf_PosInf) as (r & Hr & Hab).
    apply ab_ok_full in Hab. subst r.
    exists v. eexists. split; [exact Hv|].
    rewrite <- Hr. apply (runs_in_time moveStartTime s); auto.
Qed.

(** C1. With the clock never reaching the budget, the pruned search started
    with the full window returns the utility and the move of the unpruned
    minimax traversal of the same tree (every legal move; the ranked cells
    with both tile values), at every depth and on every board of the data
    model; the same holds of the utility of a chance node. *)
Theorem pruning_matches_minimax (depth : nat) (grid : loc) (board : Grid)
    (moveStartTime : Q) (s : state) :
  wf board ->
  heap s !! grid = Some board ->
  (forall k, expired moveStartTime k = false) ->
  (exists utility move s',
     minimax_max depth board = Ok (utility, move) /\
     maximize depth grid NegInf PosInf moveStartTime s
       = (Ok (utility, move), s')) /\
  (exists utility s',
     minimax_min depth board = Ok (utility, None) /\
     minimize depth grid NegInf PosInf moveStartTime s
       = (Ok (utility, None), s')).
Proof. exact (full_window_search depth grid board moveStartTime s). Qed.

(** ** Iterative deepening *)

Lemma getMove_loop_S (fuel : nat) (grid : loc) (start : Q) (depth : nat)
    (bestMove : option Move) (s : state) :
  getMove_loop (S fuel) grid start depth bestMove s =
  if expired start (ticks s) then (Ok (Some (bestMove, depth)), tick s)
  else
    match maximize depth grid NegInf PosInf start (tick s) with
    | (Ok (_, move), s') =>
        getMove_loop fuel grid start (S depth)
          (match move with Some m => Some m | None => bestMove end) s'
    | (Raise TimeoutError, s') => (Ok (Some (bestMove, depth)), s')
    | (Raise e, s') => (Raise e, s')
    end.
Proof.
  cbn [getMove_loop]. rewrite run_bind. unfold time_time at 1.
  cbv iota beta. fold (tick s). fold (expired start (ticks s)).
  destruct (expired start (ticks s)); [reflexivity|].
  cbv [negb]. rewrite run_bind. unfold try at 1.
  destruct (maximize depth grid NegInf PosInf start (tick s))
    as [[[u move]|e] s']; [reflexivity|].
  now destruct e.
Qed.

Lemma getMove_run (fuel : nat) (grid : loc) (s : state) :
  getMove fuel grid s =
  match getMove_loop fuel grid (now (ticks s)) 1 None (tick s) with
  | (Ok r, s') => (Ok (fst <$> r), s')
  | (Raise e, s') => (Raise e, s')
  end.
Proof.
  unfold getMove. rewrite run_bind. unfold time_time at 1. cbv iota beta.
  fold (tick s). rewrite run_bind.
  now destruct (getMove_loop _ _ _ _ _ _) as [[r|e] s'].
Qed.

Lemma getMove_loop_frame (fuel : nat) (grid : loc) (board : Grid) (start : Q) :
  forall depth bestMove s,
    heap s !! grid = Some board ->
    heap s `prefix_of` heap (getMove_loop fuel grid start depth bestMove s).2.
Proof.
  induction fuel as [|fuel IH]; intros depth bestMove s H; [reflexivity|].
  rewrite getMove_loop_S.
  destruct (expired start (ticks s)); [reflexivity|].
  destruct (search_runs start depth) as [Hmax _].
  specialize (Hmax grid board NegInf PosInf (tick s) H).
  destruct (maximize depth grid NegInf PosInf start (tick s))
    as [[[u move]|e] s'].
  - assert (heap s `prefix_of` heap s') as Hp
        by (destruct Hmax as [[_ (Hp & _)]|[_ (Hp & _)]]; exact Hp).
    transitivity (heap s'); [exact Hp|].
    apply IH. now apply (prefix_lookup_Some (heap s)).
  - assert (heap s `prefix_of` heap s') as Hp
        by (destruct Hmax as [[_ (Hp & _)]|[_ (Hp & _)]]; exact Hp).
    now destruct e.
Qed.

(** C6. [getMove] leaves the caller's board as it was, and with it every
    Grid object that existed before the call: the search only adds objects to
    the store (the successors made by [getAvailableMoves] and the clones), and
    [setCellValue] only ever writes to a clone made just before. This holds
    for every number of rounds of the loop and on every way out, a timeout
    included. *)
Theorem getMove_keeps_board (fuel : nat) (grid : loc) (board : Grid)
    (s : state) :
  heap s !! grid = Some board ->
  heap (getMove fuel grid s).2 !! grid = Some board /\
  forall (other : loc) (g : Grid),
    heap s !! other = Some g -> heap (getMove fuel grid s).2 !! other = Some g.
Proof.
  intros H.
  assert (heap s `prefix_of` heap (getMove fuel grid s).2) as Hp.
  { rewrite getMove_run.
    pose proof (getMove_loop_frame fuel grid board (now (ticks s)) 1 None
                  (tick s) H) as Hp.
    now destruct (getMove_loop _ _ _ _ _ _) as [[r|e] s']. }
  split; [|intros other g Hg]; now apply (prefix_lookup_Some (heap s)).
Qed.

(** ** The first move of greatest utility *)

Lemma best_step_first (l : list (Move * pyfloat)) :
  forall bu bm v mv,
    fold_left best_step l (bu, bm) = (v, mv) ->
    lef bu v /\
    (forall j m' v', l !! j = Some (m', v') -> lef v' v) /\
    ((v, mv) = (bu, bm) \/
     exists i m,
       l !! i = Some (m, v) /\ mv = Some m /\ ltf bu v /\
       forall j m' v', (j < i)%nat -> l !! j = Some (m', v') -> ltf v' v).
Proof.
  induction l as [|[m0 v0] l IH]; intros bu bm v mv Hfold; simpl in Hfold.
  - injection Hfold as <- <-. split; [apply lef_refl|].
    split; [intros j m' v' Hj; discriminate|now left].
  - destruct (flt bu v0) eqn:E.
    + destruct (IH _ _ _ _ Hfold) as (Hle & Hall & Hcase).
      split; [fl_order|]. split.
      * intros [|j] m' v' Hj; simpl in Hj; [|now apply (Hall j m')].
        injection Hj as <- <-. exact Hle.
      * right. destruct Hcase as [[= -> ->]|(i & m & Hi & -> & Hlt & Hbefore)].
        -- exists 0%nat, m0. repeat split; auto. intros j m' v' Hj. lia.
        -- exists (S i), m. repeat split; auto; [fl_order|].
           intros [|j] m' v' Hj Hl; simpl in Hl.
           ++ now injection Hl as <- <-.
           ++ apply (Hbefore j m'); [lia|exact Hl].
    + destruct (IH _ _ _ _ Hfold) as (Hle & Hall & Hcase).
      split; [exact Hle|]. split.
      * intros [|j] m' v' Hj; simpl in Hj; [|now apply (Hall j m')].
        injection Hj as <- <-. fl_order.
      * destruct Hcase as [Heq|(i & m & Hi & -> & Hlt & Hbefore)];
          [now left|right].
        exists (S i), m. repeat split; auto.
        intros [|j] m' v' Hj Hl; simpl in Hl.
        -- injection Hl as <- <-. fl_order.
        -- apply (Hbefore j m'); [lia|exact Hl].
Qed.

Lemma fmin_fold_in (l : list pyfloat) (acc : pyfloat) :
  fold_left fmin l acc = acc \/ fold_left fmin l acc ∈ l.
Proof.
  revert acc. induction l as [|u l IH]; intros acc; simpl; [now left|].
  destruct (IH (fmin acc u)) as [Heq|Hin].
  - rewrite Heq. unfold fmin. destruct (flt u acc); [right; left|now left].
  - right. now right.
Qed.

Lemma mapM_Ok_inv {A B : Type} (f : A -> result B) (l : list A)
    (k : list B) :
  mapM f l = Ok k -> Forall2 (fun a b => f a = Ok b) l k.
Proof.
  revert k. induction l as [|a l IH]; intros k Hk.
  - injection Hk as <-. constructor.
  - unfold mapM in Hk. simpl in Hk.
    destruct (f a) as [b|e] eqn:Hb; [|discriminate]. simpl in Hk.
    fold (mapM f l) in Hk.
    destruct (mapM f l) as [k'|e] eqn:Hk'; [|discriminate].
    injection Hk as <-. constructor; auto.
Qed.

(** Under the contract no utility is [-inf]: a board that can move has a
    move, and a leaf has a finite score. *)
Lemma minimax_above (depth : nat) :
  (forall g v mv, wf g -> minimax_max depth g = Ok (v, mv) -> ltf NegInf v) /\
  (forall g v mv, wf g -> minimax_min depth g = Ok (v, mv) -> ltf NegInf v).
Proof.
  assert (forall g v mv, wf g -> leaf g = Ok (v, mv) -> ltf NegInf v) as Hleaf.
  { intros g v mv Hwf Hl. destruct (leaf_ok g Hwf) as [q Hq].
    rewrite Hq in Hl. now injection Hl as <- _. }
  induction depth as [|depth [IHmax IHmin]]; [split; exact Hleaf|].
  split; intros g v mv Hwf.
  - rewrite minimax_max_S. destruct (canMove g) eqn:Hmv; simpl;
      [|now apply Hleaf].
    destruct (mapM _ (getAvailableMoves g)) as [scored|e] eqn:Hs;
      [|discriminate].
    simpl. intros [= Hbest].
    apply mapM_Ok_inv in Hs.
    destruct (getAvailableMoves g) as [|[m c] moves] eqn:Hmoves.
    { apply (canMove_spec g Hwf) in Hmv. congruence. }
    inversion Hs as [|? [m' v0] ? scored' Hc _]; subst. simpl in Hc.
    destruct (minimax_min depth c) as [[v1 x]|e] eqn:Hv1; [|discriminate].
    simpl in Hc. injection Hc as <- <-.
    assert (ltf NegInf v1) as Hv.
    { apply (IHmin c v1 x); [|exact Hv1].
      apply (getAvailableMoves_wf g m c Hwf). rewrite Hmoves. left. }
    destruct (best_step_first _ _ _ _ _ Hbest) as (_ & Hall & _).
    specialize (Hall 0%nat m v1 eq_refl). fl_order.
  - rewrite minimax_min_S. destruct (canMove g) eqn:Hmv; simpl;
      [|now apply Hleaf].
    destruct (rankCells_val g) as [cells|e] eqn:Hr; [|discriminate]. simpl.
    destruct (mapM _ (placements cells)) as [vs|e] eqn:Hs; [|discriminate].
    simpl. intros [= <- _].
    apply mapM_Ok_inv in Hs.
    destruct (fmin_fold_in vs PosInf) as [Heq|Hin].
    { unfold least_of. now rewrite Heq. }
    unfold least_of.
    apply list_elem_of_lookup in Hin as [i Hi].
    destruct (Forall2_lookup_r _ _ _ _ _ Hs Hi) as ([cell tile] & Hp & Hv).
    simpl in Hv.
    assert (in_board cell) as Hcell.
    { pose proof (placements_in_board cells
                    (rankCells_val_in_board g cells Hwf Hr)) as Hb.
      rewrite Forall_forall in Hb.
      apply (Hb (cell, tile)). now apply list_elem_of_lookup_2 with i. }
    destruct (setCellValue_wf g cell tile Hwf Hcell) as (child & Hset & Hwc).
    rewrite Hset in Hv. simpl in Hv.
    destruct (minimax_max depth child) as [[v1 x]|e] eqn:Hv1; [|discriminate].
    simpl in Hv. injection Hv as Hv. rewrite <- Hv.
    now apply (IHmax child v1 x).
Qed.

(** C7. The maximizing layer returns the first move, in the order of
    [getAvailableMoves], whose chance-layer utility is greatest: every move
    enumerated before it has a strictly smaller utility and no move has a
    greater one, because the tracked move is replaced only on a strictly
    greater utility. So of two moves whose utilities tie the later one is
    never returned. *)
Theorem first_best_move_wins (depth : nat) (grid : loc) (board : Grid)
    (moveStartTime : Q) (s : state) :
  wf board ->
  heap s !! grid = Some board ->
  (forall k, expired moveStartTime k = false) ->
  canMove board = true ->
  exists i move child utility s',
    getAvailableMoves board !! i = Some (move, child) /\
    minimax_min depth child = Ok (utility, None) /\
    maximize (S depth) grid NegInf PosInf moveStartTime s
      = (Ok (utility, Some move), s') /\
    (forall j move' child' utility',
       getAvailableMoves board !! j = Some (move', child') ->
       minimax_min depth child' = Ok (utility', None) ->
       lef utility' utility /\ ((j < i)%nat -> ltf utility' utility)) /\
    (forall j1 j2 m1 c1 m2 c2 u1 u2,
       (j1 < j2)%nat ->
       getAvailableMoves board !! j1 = Some (m1, c1) ->
       getAvailableMoves board !! j2 = Some (m2, c2) ->
       minimax_min depth c1 = Ok (u1, None) ->
       minimax_min depth c2 = Ok (u2, None) ->
       flt u1 u2 = false -> i <> j2).
Proof.
  intros Hwf H Hnever Hmv.
  destruct (full_window_search (S depth) grid board moveStartTime s
              Hwf H Hnever) as [(v & mv & s' & Hv & Hrun) _].
  pose proof Hv as Hv'. rewrite minimax_max_S, Hmv in Hv'. simpl in Hv'.
  destruct (mapM _ (getAvailableMoves board)) as [scored|e] eqn:Hs;
    [|discriminate].
  simpl in Hv'. injection Hv' as Hbest. apply mapM_Ok_inv in Hs.
  assert (forall j m c u x,
            getAvailableMoves board !! j = Some (m, c) ->
            minimax_min depth c = Ok (u, x) -> scored !! j = Some (m, u))
    as Hscored.
  { intros j m c u x Hj Hu.
    destruct (Forall2_lookup_l _ _ _ _ _ Hs Hj) as ([m' u'] & Hj' & Hc).
    simpl in Hc. rewrite Hu in Hc. simpl in Hc. now injection Hc as <- <-. }
  destruct (best_step_first _ _ _ _ _ Hbest) as (_ & Hall & Hcase).
  destruct Hcase as [[= -> ->]|(i & m & Hi & -> & Hlt & Hbefore)].
  { exfalso. destruct (minimax_above (S depth)) as [Habove _].
    exact (ltf_irrefl _ (Habove board NegInf None Hwf Hv)). }
  destruct (Forall2_lookup_r _ _ _ _ _ Hs Hi) as ([m' c] & Hmc & Hc).
  simpl in Hc.
  destruct (search_sound depth) as [_ Hmin].
  assert (wf c) as Hwc.
  { apply (getAvailableMoves_wf board m' c Hwf).
    now apply list_elem_of_lookup_2 with i. }
  destruct (Hmin c Hwc) as (vc & Hvc & _).
  rewrite Hvc in Hc. simpl in Hc. injection Hc as -> ->.
  exists i, m, c, v, s'. repeat split; auto.
  - apply (Hall j move'). now apply (Hscored j move' child' utility' None).
  - intros Hj. apply (Hbefore j move'); [exact Hj|].
    now apply (Hscored j move' child' utility' None).
  - intros j1 j2 m1 c1 m2 c2 u1 u2 Hj Hj1 Hj2 Hu1 Hu2 Htie ->.
    pose proof (Hscored _ _ _ _ _ Hj2 Hu2) as Hs2.
    rewrite Hi in Hs2. injection Hs2 as -> ->.
    pose proof (Hbefore j1 m1 u1 Hj (Hscored _ _ _ _ _ Hj1 Hu1)) as Hlt1.
    unfold ltf in Hlt1. congruence.
Qed.

(** ** What [getMove] returns *)

Lemma minimax_moves (depth : nat) (board : Grid) :
  wf board ->
  exists v mv,
    minimax_max depth board = Ok (v, mv) /\
    (mv = None <-> canMove board = false \/ depth = 0%nat).
Proof.
  intros Hwf. destruct (search_sound depth) as [Hmax _].
  destruct (Hmax board Hwf) as (v & mv & Hv & _). exists v, mv.
  split; [exact Hv|]. destruct depth as [|depth].
  - destruct (leaf_ok board Hwf) as [q Hq]. simpl in Hv. rewrite Hq in Hv.
    injection Hv as <- <-. split; auto.
  - pose proof Hv as Hv'. rewrite minimax_max_S in Hv'.
    destruct (canMove board) eqn:Hmv; simpl in Hv'.
    + split; [|intros [?|?]; discriminate]. intros ->. exfalso.
      destruct (mapM _ (getAvailableMoves board)) as [scored|e];
        [|discriminate].
      simpl in Hv'. injection Hv' as Hbest.
      destruct (best_step_first _ _ _ _ _ Hbest)
        as (_ & _ & [[= ->]|(i & m & _ & Hm & _)]); [|discriminate].
      destruct (minimax_above (S depth)) as [Habove _].
      exact (ltf_irrefl _ (Habove board NegInf None Hwf Hv)).
    + destruct (leaf_ok board Hwf) as [q Hq]. rewrite Hq in Hv'.
      injection Hv' as <- <-. split; auto.
Qed.

Lemma recorded_None (board : Grid) (n : nat) :
  wf board ->
  (recorded board n = None <-> canMove board = false \/ n = 0%nat).
Proof.
  intros Hwf. destruct n as [|n]; [simpl; split; auto|].
  destruct (minimax_moves (S n) board Hwf) as (v & mv & Hv & Hmv).
  unfold recorded. now rewrite Hv.
Qed.

Lemma maximize_round (depth : nat) (grid : loc) (board : Grid) (start : Q)
    (s : state) :
  wf board -> heap s !! grid = Some board ->
  exists s',
    (exists v,
       maximize depth grid NegInf PosInf start s
         = (Ok (v, recorded board depth), s') /\
       (depth = 0%nat \/ canMove board = false \/ recorded board depth <> None)
       /\ clean start s s') \/
    (maximize depth grid NegInf PosInf start s = (Raise TimeoutError, s') /\
     timed_out start s s').
Proof.
  intros Hwf H.
  destruct (search_runs start depth) as [Hrun _].
  specialize (Hrun grid board NegInf PosInf s H).
  destruct (search_sound depth) as [Hmax _].
  destruct (Hmax board Hwf) as (v & mv & Hv & Hp).
  destruct (Hp NegInf PosInf ltf_NegInf_PosInf) as (r & mr & Hr & _ & Heq).
  rewrite Heq in Hr by (right; now split). clear Heq r mr.
  destruct (maximize depth grid NegInf PosInf start s) as [out s'] eqn:Hout.
  exists s'. destruct Hrun as [[Ho Hc]|[Ho Ht]]; simpl in *; subst out.
  - left. exists v.
    assert (recorded board depth = mv \/ depth = 0%nat) as [<- | ->].
    { destruct depth; [now right|left]. unfold recorded. now rewrite Hv. }
    + rewrite Hr. split; [reflexivity|]. split; [|exact Hc].
      destruct depth; [now left|right].
      destruct (canMove board) eqn:Hmv; [right|now left].
      intros Hnone. apply (recorded_None board (S depth) Hwf) in Hnone.
      destruct Hnone; congruence.
    + destruct (leaf_ok board Hwf) as [q Hq]. simpl in Hv. rewrite Hq in Hv.
      injection Hv as <- <-. rewrite Hr.
      split; [reflexivity|]. split; [now left|exact Hc].
  - right. now split.
Qed.

Lemma getMove_loop_result (grid : loc) (board : Grid) (start : Q)
    (fuel : nat) :
  wf board ->
  forall depth s,
    heap s !! grid = Some board -> (1 <= depth)%nat ->
    exists r s',
      getMove_loop fuel grid start depth (recorded board (depth - 1)) s
        = (Ok r, s') /\
      forall best d, r = Some (best, d) ->
        (depth <= d)%nat /\ best = recorded board (d - 1).
Proof.
  intros Hwf. induction fuel as [|fuel IH]; intros depth s H Hd.
  - exists None, s. split; [reflexivity|discriminate].
  - rewrite getMove_loop_S.
    destruct (expired start (ticks s)).
    { eexists _, _. split; [reflexivity|]. intros best d [= <- <-]. auto. }
    destruct (maximize_round depth grid board start (tick s) Hwf H)
      as (s1 & [(v & -> & Hrec & Hc)|[-> _]]).
    2:{ eexists _, _. split; [reflexivity|].
        intros best d [= <- <-]. auto. }
    assert (match recorded board depth with
            | Some m => Some m
            | None => recorded board (depth - 1)
            end = recorded board (S depth - 1)) as ->.
    { replace (S depth - 1)%nat with depth by lia.
      destruct (recorded board depth) eqn:Hr; [reflexivity|].
      apply (recorded_None board) in Hr as [Hr|Hr]; [|lia|exact Hwf].
      apply (recorded_None board); auto. }
    destruct (IH (S depth) s1) as (r & s' & Hrun & Hres); [| lia |].
    { now apply (clean_lookup start (tick s) s1). }
    exists r, s'. split; [exact Hrun|].
    intros best d Hbd. destruct (Hres best d Hbd). split; [lia|assumption].
Qed.

Lemma getMove_loop_ends (grid : loc) (board : Grid) (start : Q) (K : nat) :
  wf board -> expired start K = true ->
  forall fuel depth bestMove s,
    heap s !! grid = Some board -> (ticks s <= K)%nat ->
    (K - ticks s < fuel)%nat ->
    (getMove_loop fuel grid start depth bestMove s).1 <> Ok None.
Proof.
  intros Hwf HK. induction fuel as [|fuel IH];
    intros depth bestMove s H Hle Hfuel; [lia|].
  rewrite getMove_loop_S.
  destruct (expired start (ticks s)) eqn:He; [discriminate|].
  assert (ticks s <> K) as Hne by (intros E; rewrite E in He; congruence).
  destruct (maximize_round depth grid board start (tick s) Hwf H)
    as (s1 & [(v & -> & Hrec & Hc)|[-> _]]); [|discriminate].
  destruct Hc as (Hp & Hticks & Hclean). simpl in Hticks, Hclean.
  assert (ticks s1 <= K)%nat as Hle1.
  { destruct (Nat.le_gt_cases (ticks s1) K) as [|Hgt]; [assumption|].
    rewrite Hclean in HK by lia. discriminate. }
  apply IH; [|assumption|lia].
  now apply (prefix_lookup_Some (heap (tick s))).
Qed.

(** *** The rounds of the deepening loop and the clock *)

Lemma minimize_O_state (l : loc) (alpha beta : pyfloat) (start : Q)
    (s : state) :
  (minimize 0 l alpha beta start s).2 = s.
Proof.
  simpl. unfold grid_evaluate. rewrite !run_bind. unfold deref, lift.
  destruct (heap s !! l) as [g|]; [|reflexivity].
  now destruct (evaluate g).
Qed.

Lemma max_loop_leaves_ticks (start : Q) (moves : list (Move * loc)) :
  forall alpha beta maxChildMove maxStateUtility s,
    ticks (max_loop (fun child alpha beta =>
                       minimize 0 child alpha beta start)
                    moves alpha beta maxChildMove maxStateUtility s).2
    = ticks s.
Proof.
  induction moves as [|[move child] moves IH]; intros alpha beta mm mu s;
    [reflexivity|].
  cbn [max_loop]. rewrite run_bind.
  pose proof (minimize_O_state child alpha beta start s) as Hs.
  destruct (minimize 0 child alpha beta start s) as [[[u x]|e] s1];
    simpl in Hs; subst s1; [|reflexivity].
  destruct (flt mu u); cbv iota beta;
    (destruct (fle beta (fmax alpha u)); [reflexivity|apply IH]).
Qed.

Lemma maximize_1_reads_once (grid : loc) (board : Grid) (alpha beta : pyfloat)
    (start : Q) (s : state) :
  heap s !! grid = Some board -> canMove board = true ->
  ticks (maximize 1 grid alpha beta start s).2 = S (ticks s).
Proof.
  intros H Hmv.
  rewrite (maximize_S 0 grid board alpha beta start s H), Hmv. cbv [negb].
  destruct (expired start (ticks s)); [reflexivity|].
  rewrite run_bind. unfold grid_getAvailableMoves. rewrite run_bind.
  rewrite (run_deref grid board (tick s) H).
  destruct (run_alloc_moves (getAvailableMoves board) (tick s))
    as (locs & -> & _).
  now rewrite max_loop_leaves_ticks.
Qed.

Lemma recorded_kept (board : Grid) (depth : nat) :
  wf board -> (1 <= depth)%nat ->
  match recorded board depth with
  | Some m => Some m
  | None => recorded board (depth - 1)
  end = recorded board (S depth - 1).
Proof.
  intros Hwf Hd. replace (S depth - 1)%nat with depth by lia.
  destruct (recorded board depth) eqn:Hr; [reflexivity|].
  apply (recorded_None board) in Hr as [Hr|Hr]; [|lia|exact Hwf].
  apply (recorded_None board); auto.
Qed.

Lemma getMove_loop_trace (grid : loc) (board : Grid) (start : Q)
    (fuel : nat) :
  wf board ->
  forall depth s best d s',
    heap s !! grid = Some board -> (1 <= depth)%nat ->
    getMove_loop fuel grid start depth (recorded board (depth - 1)) s
      = (Ok (Some (best, d)), s') ->
    exists st : nat -> state,
      st depth = s /\ (depth <= d)%nat /\
      (forall n, (depth <= n < d)%nat ->
         round_completes grid start n (recorded board n) (st n) (st (S n))) /\
      round_cut grid start d (st d) s'.
Proof.
  intros Hwf. induction fuel as [|fuel IH];
    intros depth s best d s' H Hd Hrun; [discriminate|].
  rewrite getMove_loop_S in Hrun.
  destruct (expired start (ticks s)) eqn:He.
  { injection Hrun as _ <- <-. exists (fun _ => s).
    split; [reflexivity|]. split; [lia|]. split.
    - intros n Hn. lia.
    - left. now split. }
  destruct (maximize_round depth grid board start (tick s) Hwf H)
    as (s1 & [(v & Hmax & Hrec & Hc)|[Hmax Ht]]); rewrite Hmax in Hrun.
  2:{ injection Hrun as _ <- <-. exists (fun _ => s).
      split; [reflexivity|]. split; [lia|]. split.
      - intros n Hn. lia.
      - right. now split. }
  rewrite (recorded_kept board depth Hwf Hd) in Hrun.
  destruct (IH (S depth) s1 best d s') as (st & Hst & Hle & Hrounds & Hcut);
    [|lia|exact Hrun|].
  { now apply (clean_lookup start (tick s) s1). }
  exists (fun n => if (n <=? depth)%nat then s else st n).
  assert (forall n, (depth < n)%nat -> (n <=? depth)%nat = false) as Hafter
    by (intros n Hn; apply Nat.leb_gt; lia).
  split; [now rewrite Nat.leb_refl|]. split; [lia|]. split.
  - intros n Hn. destruct (Nat.eq_dec n depth) as [->|Hne].
    + rewrite Nat.leb_refl, Hafter, Hst by lia.
      split; [exact He|]. now exists v.
    + rewrite !Hafter by lia. apply Hrounds. lia.
  - rewrite Hafter by lia. exact Hcut.
Qed.

Lemma getMove_loop_first_round (grid : loc) (board : Grid) (start : Q)
    (fuel : nat) (s s' : state) (best : option Move) (d : nat) :
  wf board -> heap s !! grid = Some board ->
  getMove_loop fuel grid start 1 None s = (Ok (Some (best, d)), s') ->
  (d = 1%nat <->
   expired start (ticks s) = true \/
   (canMove board = true /\ expired start (S (ticks s)) = true)).
Proof.
  intros Hwf H Hrun. destruct fuel as [|fuel]; [discriminate|].
  rewrite getMove_loop_S in Hrun.
  destruct (expired start (ticks s)) eqn:He.
  { injection Hrun as _ <- _. split; auto. }
  assert (forall s1, heap s1 !! grid = Some board ->
            getMove_loop fuel grid start 2 (recorded board 1) s1
              = (Ok (Some (best, d)), s') -> (2 <= d)%nat) as Hnext.
  { intros s1 H1 Hloop.
    destruct (getMove_loop_result grid board start fuel Hwf 2 s1 H1)
      as (r & s2 & Hloop' & Hres); [lia|].
    change (2 - 1)%nat with 1%nat in Hloop'. rewrite Hloop in Hloop'.
    injection Hloop' as <- _. now destruct (Hres best d eq_refl). }
  pose proof (maximize_1_reads_once grid board NegInf PosInf start (tick s) H)
    as Hticks.
  destruct (maximize_round 1 grid board start (tick s) Hwf H)
    as (s1 & [(v & Hmax & Hrec & Hc)|[Hmax Ht]]); rewrite Hmax in Hrun.
  - assert (2 <= d)%nat as Hd.
    { apply (Hnext s1).
      - now apply (clean_lookup start (tick s) s1).
      - now destruct (recorded board 1). }
    split; [lia|]. intros [Hl|[Hmv Hl]]; [discriminate|].
    rewrite Hmax in Hticks. specialize (Hticks Hmv). simpl in Hticks.
    destruct Hc as (_ & _ & Hclean). rewrite Hclean in Hl; [discriminate|].
    simpl. lia.
  - injection Hrun as _ <- _. split; [|reflexivity]. intros _. right.
    destruct (canMove board) eqn:Hmv.
    + split; [reflexivity|]. rewrite Hmax in Hticks.
      specialize (Hticks eq_refl). simpl in Hticks.
      destruct Ht as (_ & _ & Hexp & _). now rewrite Hticks in Hexp.
    + exfalso.
      rewrite (maximize_S 0 grid board NegInf PosInf start (tick s) H), Hmv
        in Hmax.
      destruct (leaf_ok board Hwf) as [q Hq]. rewrite Hq in Hmax.
      discriminate.
Qed.

(** C8. [getMove] never lets an exception out on a board of the data model,
    so no [TimeoutError] reaches the caller, and it returns as soon as a clock
    reading reaches the budget. What it returns is [None] exactly when the
    root board has no legal move or no round of the deepening loop completed
    within the budget, which is when the first test of the loop is late or
    the one clock test of the first round, at its root, is late. The local
    [depth] at the exit counts the rounds: every round below it passed the
    test of the loop and its search returned the minimax move of its depth,
    and the round of that depth was cut, by the test of the loop or by
    [TimeoutError]. The result is the move of the last completed round, the
    round of depth [depth - 1]. *)
Theorem getMove_returns (grid : loc) (board : Grid) (s : state) :
  wf board ->
  heap s !! grid = Some board ->
  let moveStartTime := now (ticks s) in
  (forall fuel, exists r s', getMove fuel grid s = (Ok r, s')) /\
  (forall K fuel,
     expired moveStartTime K = true -> (ticks s < K)%nat ->
     (K - ticks s <= fuel)%nat ->
     exists bestMove s', getMove fuel grid s = (Ok (Some bestMove), s')) /\
  (forall fuel bestMove s',
     getMove fuel grid s = (Ok (Some bestMove), s') ->
     (bestMove = None <->
      canMove board = false \/
      expired moveStartTime (S (ticks s)) = true \/
      expired moveStartTime (S (S (ticks s))) = true) /\
     exists (depth : nat) (st : nat -> state),
       getMove_loop fuel grid moveStartTime 1 None (tick s)
         = (Ok (Some (bestMove, depth)), s') /\
       (1 <= depth)%nat /\
       st 1%nat = tick s /\
       (forall n, (1 <= n < depth)%nat ->
          round_completes grid moveStartTime n (recorded board n)
                          (st n) (st (S n))) /\
       round_cut grid moveStartTime depth (st depth) s' /\
       bestMove = recorded board (depth - 1) /\
       (bestMove = None <-> canMove board = false \/ depth = 1%nat) /\
       (canMove board = true -> (1 < depth)%nat ->
        exists utility move,
          minimax_max (depth - 1) board = Ok (utility, Some move) /\
          bestMove = Some move)).
Proof.
  intros Hwf H start.
  assert (forall fuel, exists r s',
            getMove_loop fuel grid start 1 None (tick s) = (Ok r, s') /\
            getMove fuel grid s = (Ok (fst <$> r), s') /\
            forall best d, r = Some (best, d) ->
              (1 <= d)%nat /\ best = recorded board (d - 1)) as Hloop.
  { intros fuel.
    destruct (getMove_loop_result grid board start fuel Hwf 1 (tick s) H)
      as (r & s' & Hrun & Hres); [lia|].
    simpl in Hrun. exists r, s'. split; [exact Hrun|]. split; [|exact Hres].
    rewrite getMove_run. fold start. now rewrite Hrun. }
  split; [|split].
  - intros fuel. destruct (Hloop fuel) as (r & s' & _ & Hrun & _). eauto.
  - intros K fuel HK Hlt Hfuel.
    destruct (Hloop fuel) as (r & s' & Hrun & Hget & _).
    pose proof (getMove_loop_ends grid board start K Hwf HK fuel 1 None
                  (tick s) H) as Hends.
    simpl in Hends. rewrite Hrun in Hends. simpl in Hends.
    destruct r as [[best d]|]; [|exfalso; apply Hends; auto; lia].
    exists best, s'. exact Hget.
  - intros fuel bestMove s' Hget.
    destruct (Hloop fuel) as (r & s1 & Hrun & Hget' & Hres).
    rewrite Hget in Hget'. injection Hget' as Hr <-.
    destruct r as [[best d]|]; [|discriminate]. injection Hr as ->.
    destruct (Hres best d eq_refl) as [Hd ->].
    assert (recorded board (d - 1) = None <->
            canMove board = false \/ d = 1%nat) as Hnone.
    { rewrite (recorded_None board (d - 1) Hwf). split; intros [?|?]; auto;
        right; lia. }
    pose proof (getMove_loop_first_round grid board start fuel (tick s) s'
                  _ d Hwf H Hrun) as Hfirst. simpl in Hfirst.
    split.
    { rewrite Hnone, Hfirst. split.
      - intros [Hmv|[Hl|[_ Hl]]]; auto.
      - intros [Hmv|[Hl|Hl]]; auto.
        destruct (canMove board); auto. }
    destruct (getMove_loop_trace grid board start fuel Hwf 1 (tick s)
                (recorded board (d - 1)) d s' H) as (st & Hst & _ & Hrounds
                                                      & Hcut); [lia| |].
    { exact Hrun. }
    exists d, st. split; [exact Hrun|]. split; [exact Hd|].
    split; [exact Hst|]. split; [exact Hrounds|]. split; [exact Hcut|].
    split; [reflexivity|]. split; [exact Hnone|].
    intros Hmv Hd1.
    destruct (minimax_moves (d - 1) board Hwf) as (v & mv & Hv & Hmvnone).
    destruct mv as [m|].
    + exists v, m. split; [exact Hv|].
      unfold recorded. destruct (d - 1)%nat eqn:E; [lia|]. now rewrite Hv.
    + destruct Hmvnone as [Hmvnone _].
      destruct (Hmvnone eq_refl); [congruence|lia].
Qed.

(** ** The evaluation function, stated over the cells of the board *)

Lemma boardCells_in (cell : Cell) : cell ∈ boardCells <-> in_board cell.
Proof.
  split.
  - intros Hin. vm_compute in Hin.
    repeat (apply elem_of_cons in Hin as [->|Hin]; [split; simpl; lia|]).
    now apply elem_of_nil in Hin.
  - intros Hc. destruct (in_board_cases _ Hc) as (x & y & -> & Hx & Hy).
    destruct Hx as [->|[->|[->| ->]]]; destruct Hy as [->|[->|[->| ->]]];
      apply (bool_decide_unpack _); vm_compute; exact I.
Qed.

Lemma cellValue_tile (grid : Grid) (cell : Cell) :
  wf grid -> in_board cell ->
  cellValue grid cell.1 cell.2 = Ok (tile grid cell).
Proof.
  intros Hwf Hc. grid_inv Hwf.
  destruct (in_board_cases _ Hc) as (x & y & -> & Hx & Hy).
  destruct Hx as [->|[->|[->| ->]]]; destruct Hy as [->|[->|[->| ->]]];
    reflexivity.
Qed.

Lemma getEmptyCells_count (grid : Grid) :
  wf grid -> getEmptyCells grid = emptyCount grid.
Proof.
  intros Hwf. unfold getEmptyCells, emptyCount. f_equal.
  apply Permutation_length.
  destruct (getAvailableCells_spec grid Hwf) as [Hnd Hspec].
  apply NoDup_Permutation; [exact Hnd| |].
  { apply NoDup_filter. apply (bool_decide_unpack _). vm_compute. exact I. }
  intros [x y]. rewrite Hspec, list_elem_of_filter, boardCells_in. split.
  - intros Hv. assert (in_board (x, y)) as Hc
        by now apply (cellValue_in_board grid x y 0).
    split; [|exact Hc]. unfold tile. simpl. now rewrite Hv.
  - intros [Ht Hc]. rewrite <- Ht. now apply (cellValue_tile grid (x, y)).
Qed.

Lemma fold_left_max (l : list Z) (a : Z) :
  (fold_left Z.max l a = a \/ fold_left Z.max l a ∈ l) /\
  a <= fold_left Z.max l a /\
  forall x, x ∈ l -> x <= fold_left Z.max l a.
Proof.
  revert a. induction l as [|b l IH]; intros a; simpl.
  - split; [now left|]. split; [lia|]. intros x Hx. now apply elem_of_nil in Hx.
  - destruct (IH (Z.max a b)) as (Hin & Hle & Hall). split; [|split].
    + destruct Hin as [Heq|Hin]; [|right; now right].
      rewrite Heq. destruct (Z.max_spec a b) as [[_ ->]|[_ ->]];
        [right; left|now left].
    + lia.
    + intros x Hx. apply elem_of_cons in Hx as [->|Hx]; [lia|now apply Hall].
Qed.

Ltac cell_case x y :=
  match goal with
  | Hin : _ ∈ _ :: _ |- _ =>
      apply elem_of_cons in Hin as [->|Hin];
      [exists (x, y); split; [split; simpl; lia|reflexivity]|]
  end.

Lemma pymax_concat (grid : Grid) :
  wf grid ->
  exists m, pymax (concat (map grid)) = Ok m /\ is_max_tile grid m.
Proof.
  intros Hwf.
  assert (forall x, x ∈ concat (map grid) <->
                    exists cell, in_board cell /\ tile grid cell = x) as Hcells.
  { grid_inv Hwf. intros x. simpl. split.
    - intros Hin.
      cell_case 0%nat 0%nat. cell_case 0%nat 1%nat. cell_case 0%nat 2%nat. cell_case 0%nat 3%nat.
      cell_case 1%nat 0%nat. cell_case 1%nat 1%nat. cell_case 1%nat 2%nat. cell_case 1%nat 3%nat.
      cell_case 2%nat 0%nat. cell_case 2%nat 1%nat. cell_case 2%nat 2%nat. cell_case 2%nat 3%nat.
      cell_case 3%nat 0%nat. cell_case 3%nat 1%nat. cell_case 3%nat 2%nat. cell_case 3%nat 3%nat.
      now apply elem_of_nil in Hin.
    - intros (cell & Hc & <-).
      destruct (in_board_cases _ Hc) as (x' & y' & -> & Hx & Hy).
      destruct Hx as [->|[->|[->| ->]]]; destruct Hy as [->|[->|[->| ->]]];
        unfold tile; simpl; rewrite !elem_of_cons; auto 20. }
  destruct (concat (map grid)) as [|a l] eqn:Hl.
  { exfalso. grid_inv Hwf. discriminate. }
  exists (fold_left Z.max l a). split; [reflexivity|].
  destruct (fold_left_max l a) as (Hin & Hle & Hall). split.
  - apply Hcells. destruct Hin as [->|Hin]; [left|now right].
  - intros cell Hc.
    assert (tile grid cell ∈ a :: l) as Ht by (apply Hcells; eauto).
    apply elem_of_cons in Ht as [->|Ht]; auto.
Qed.

Lemma is_max_tile_unique (grid : Grid) (m1 m2 : Z) :
  is_max_tile grid m1 -> is_max_tile grid m2 -> m1 = m2.
Proof.
  intros [(c1 & Hc1 & <-) H1] [(c2 & Hc2 & <-) H2].
  specialize (H1 c2 Hc2). specialize (H2 c1 Hc1). lia.
Qed.

Lemma checkMaxTileInCorner_value (grid : Grid) :
  wf grid ->
  exists m,
    is_max_tile grid m /\
    checkMaxTileInCorner grid
      = Ok (if tile grid (0%nat, 0%nat) =? m then m
            else - Z.abs (m - tile grid (0%nat, 0%nat))).
Proof.
  intros Hwf.
  destruct (pymax_concat grid Hwf) as (m & Hmax & Hm).
  exists m. split; [exact Hm|].
  unfold checkMaxTileInCorner. rewrite Hmax. simpl.
  pose proof (cellValue_tile grid (0%nat, 0%nat) Hwf) as Hcell.
  simpl in Hcell. rewrite Hcell by (split; simpl; lia).
  simpl. now destruct (_ =? _).
Qed.

(** C5. The corner sub-score: with [m] the greatest tile of the board, it is
    [m] when the cell at row 0, column 0 holds [m], and else minus the
    absolute difference of [m] and the value at that cell. *)
Theorem checkMaxTileInCorner_score (grid : Grid) (m : Z) :
  wf grid -> is_max_tile grid m ->
  (tile grid (0%nat, 0%nat) = m -> checkMaxTileInCorner grid = Ok m) /\
  (tile grid (0%nat, 0%nat) <> m ->
   checkMaxTileInCorner grid
     = Ok (- Z.abs (m - tile grid (0%nat, 0%nat)))).
Proof.
  intros Hwf Hm.
  destruct (checkMaxTileInCorner_value grid Hwf) as (m' & Hm' & Hscore).
  rewrite (is_max_tile_unique grid m' m Hm' Hm) in Hscore.
  rewrite Hscore. split; intros Hcorner.
  - apply Z.eqb_eq in Hcorner. now rewrite Hcorner.
  - apply Z.eqb_neq in Hcorner. now rewrite Hcorner.
Qed.

Lemma calcSnakeAdherence_sum (grid : Grid) :
  wf grid -> calcSnakeAdherence grid = Ok (snakeOf grid).
Proof.
  intros Hwf. grid_inv Hwf.
  unfold calcSnakeAdherence, snakeOf. simpl. unfold tile, weightOf. simpl.
  f_equal. ring.
Qed.

Lemma calcSmoothness_sum (grid : Grid) :
  wf grid -> calcSmoothness grid = Ok (smoothnessOf grid).
Proof.
  intros Hwf. grid_inv Hwf.
  unfold calcSmoothness, smoothnessOf. simpl. unfold tile. simpl.
  f_equal. ring.
Qed.

(** C2. On every board of the data model [evaluate] returns exactly
    [w1 * snake + w2 * smoothness + w3 * emptyCount + w4 * cornerBonus]:
    [snake] sums tile value times snake weight over all cells, [smoothness] is
    minus the sum of the absolute differences over the pairs of adjacent
    cells, each pair once, [emptyCount] is the number of cells holding 0,
    [cornerBonus] is the corner sub-score for the greatest tile [m], and the
    four weights are positive constants. *)
Theorem evaluate_weighted_sum (grid : Grid) :
  wf grid ->
  exists m cornerBonus,
    is_max_tile grid m /\
    cornerBonus = (if tile grid (0%nat, 0%nat) =? m then m
                   else - Z.abs (m - tile grid (0%nat, 0%nat))) /\
    evaluate grid =
      Ok (Fin (snakeWeight * inject_Z (snakeOf grid) +
               smoothnessWeight * inject_Z (smoothnessOf grid) +
               emptyCellsWeight * inject_Z (emptyCount grid) +
               maxInCornerWeight * inject_Z cornerBonus)%Q) /\
    (0 < snakeWeight /\ 0 < smoothnessWeight /\
     0 < emptyCellsWeight /\ 0 < maxInCornerWeight)%Q.
Proof.
  intros Hwf.
  destruct (checkMaxTileInCorner_value grid Hwf) as (m & Hm & Hcorner).
  exists m. eexists. split; [exact Hm|]. split; [reflexivity|]. split.
  - unfold evaluate.
    rewrite (calcSnakeAdherence_sum grid Hwf),
      (calcSmoothness_sum grid Hwf), (getEmptyCells_count grid Hwf), Hcorner.
    reflexivity.
  - repeat split; reflexivity.
Qed.

(** C3. The chance layer expands the empty cells ranked by their entry in
    the snake table, greatest first, and at most four of them: all the empty
    cells when there are at most 4, else exactly the 4 of greatest weight.
    The list read from the store leaves the state as it is, and it is the
    same for every board with the same empty cells: the ranking looks at the
    coordinates only. *)
Theorem rankCells_top4 (grid : loc) (board : Grid) (s : state) :
  wf board ->
  heap s !! grid = Some board ->
  exists cells,
    rankCells grid s = (Ok cells, s) /\
    StronglySorted (fun c1 c2 => weightOf c2 < weightOf c1) cells /\
    NoDup cells /\
    (forall c, c ∈ cells -> c ∈ getAvailableCells board) /\
    ((length (getAvailableCells board) <= 4)%nat ->
     cells ≡ₚ getAvailableCells board) /\
    ((4 < length (getAvailableCells board))%nat ->
     length cells = 4%nat /\
     forall c c', c ∈ cells -> c' ∈ getAvailableCells board -> c' ∉ cells ->
                  weightOf c' < weightOf c) /\
    (forall grid' board' s',
       wf board' -> heap s' !! grid' = Some board' ->
       getAvailableCells board' ≡ₚ getAvailableCells board ->
       rankCells grid' s' = (Ok cells, s')).
Proof.
  intros Hwf H.
  destruct (rankCells_val_ok board Hwf) as (ranked & Hsort & Hrank & Hp & Hs).
  destruct (getAvailableCells_spec board Hwf) as [Hnd _].
  pose proof (getAvailableCells_in_board board Hwf) as Hb.
  assert (StronglySorted (fun c1 c2 => weightOf c2 < weightOf c1)
            (take 4 ranked ++ drop 4 ranked)) as Hstrict.
  { rewrite take_drop. apply heavier_strict; auto; now rewrite Hp. }
  exists (take 4 ranked). repeat split.
  - now rewrite (run_rankCells grid board s H), Hrank.
  - now apply StronglySorted_app_1_l in Hstrict.
  - apply (sublist_NoDup _ ranked); [now rewrite Hp|apply sublist_take].
  - intros c Hc. rewrite <- Hp. now apply (subseteq_take 4 ranked).
  - intros Hlen. rewrite take_ge; [exact Hp|]. now rewrite Hp.
  - rewrite length_take, Hp. lia.
  - intros c c' Hc Hc' Hnot.
    apply (StronglySorted_app_1_elem_of _ _ _ c c' Hstrict Hc).
    rewrite <- Hp, <- (take_drop 4 ranked) in Hc'.
    apply elem_of_app in Hc' as [Hc'|Hc']; [contradiction|exact Hc'].
  - intros grid' board' s' Hwf' H' Hp'.
    destruct (rankCells_val_ok board' Hwf')
      as (ranked' & _ & Hrank' & Hp2 & Hs').
    rewrite (run_rankCells grid' board' s' H'), Hrank'.
    do 3 f_equal. apply heavier_unique; auto.
    + rewrite Hp2, Hp'. exact Hb.
    + now rewrite Hp2, Hp', Hp.
Qed.

(** * Further properties of the agent *)

(** X1. Searched with any window [alpha < beta], the pruned search is
    fail-soft: when the minimax value of the node lies strictly inside the
    window, [maximize] returns exactly that value and the minimax move, and
    [minimize] that value; when it lies at or below [alpha] the result is an
    upper bound of it that is still at most [alpha]; when it lies at or above
    [beta] the result is a lower bound of it that is still at least [beta]. *)
Theorem pruned_search_fail_soft (depth : nat) (grid : loc) (board : Grid)
    (alpha beta : pyfloat) (moveStartTime : Q) (s : state) :
  wf board ->
  heap s !! grid = Some board ->
  (forall k, expired moveStartTime k = false) ->
  ltf alpha beta ->
  (exists v mv r mr s',
     minimax_max depth board = Ok (v, mv) /\
     maximize depth grid alpha beta moveStartTime s = (Ok (r, mr), s') /\
     (ltf alpha v -> ltf v beta -> r = v /\ mr = mv) /\
     (lef v alpha -> lef v r /\ lef r alpha) /\
     (lef beta v -> lef beta r /\ lef r v)) /\
  (exists v r s',
     minimax_min depth board = Ok (v, None) /\
     minimize depth grid alpha beta moveStartTime s = (Ok (r, None), s') /\
     (ltf alpha v -> ltf v beta -> r = v) /\
     (lef v alpha -> lef v r /\ lef r alpha) /\
     (lef beta v -> lef beta r /\ lef r v)).
Proof.
  intros Hwf H Hnever Hw.
  destruct (search_sound depth) as [Hmax Hmin].
  destruct (search_runs moveStartTime depth) as [Rmax Rmin].
  split.
  - destruct (Hmax board Hwf) as (v & mv & Hv & Hp).
    destruct (Hp alpha beta Hw) as (r & mr & Hr & (H1 & H2 & H3) & Heq).
    exists v, mv, r, mr. eexists. split; [exact Hv|]. split.
    { rewrite <- Hr. apply (runs_in_time moveStartTime s); auto. }
    split; [|split; assumption].
    intros Hlo Hhi. assert ((r, mr) = (v, mv)) as Hpair by (apply Heq; auto).
    now injection Hpair as -> ->.
  - destruct (Hmin board Hwf) as (v & Hv & Hp).
    destruct (Hp alpha beta Hw) as (r & Hr & (H1 & H2 & H3)).
    exists v, r. eexists. split; [exact Hv|]. split.
    { rewrite <- Hr. apply (runs_in_time moveStartTime s); auto. }
    repeat split; auto; now apply H2 || now apply H3.
Qed.

(** X3. The chance layer never chooses a move: whenever [minimize] returns,
    at a terminal node or after its loops, the move it returns is [None]. *)
Theorem minimize_returns_no_move (depth : nat) (grid : loc) (board : Grid)
    (alpha beta : pyfloat) (moveStartTime : Q) (s s' : state)
    (utility : pyfloat) (move : option Move) :
  heap s !! grid = Some board ->
  minimize depth grid alpha beta moveStartTime s = (Ok (utility, move), s') ->
  move = None.
Proof.
  intros H.
  assert (forall u m, leaf board = Ok (u, m) -> m = @None Move) as Hleaf.
  { intros u m. unfold leaf. destruct (evaluate board); simpl; [|discriminate].
    now intros [= _ <-]. }
  destruct depth as [|depth].
  - rewrite (minimize_O grid board alpha beta moveStartTime s H).
    intros [= Hl _]. now apply (Hleaf utility).
  - rewrite (minimize_S depth grid board alpha beta moveStartTime s H).
    destruct (negb (canMove board)).
    { intros [= Hl _]. now apply (Hleaf utility). }
    destruct (expired moveStartTime (ticks s)); [discriminate|].
    rewrite run_bind. destruct (rankCells grid (tick s)) as [[cells|e] s1];
      [|discriminate].
    rewrite run_bind.
    destruct (min_cells _ _ _ _ _ _ _) as [[mu|e] s2]; [|discriminate].
    now intros [= _ <- _].
Qed.

(** X4. A chance node on a board that can still move but has no empty cell
    has nothing to loop over: it returns [+inf], the initial value of its
    running minimum, after its one reading of the clock. *)
Theorem minimize_without_empty_cell (depth : nat) (grid : loc) (board : Grid)
    (alpha beta : pyfloat) (moveStartTime : Q) (s : state) :
  heap s !! grid = Some board ->
  canMove board = true ->
  getAvailableCells board = [] ->
  expired moveStartTime (ticks s) = false ->
  minimize (S depth) grid alpha beta moveStartTime s
    = (Ok (PosInf, None), tick s).
Proof.
  intros H Hmv Hcells He.
  rewrite (minimize_S depth grid board alpha beta moveStartTime s H), Hmv, He.
  simpl. rewrite run_bind, (run_rankCells grid board (tick s) H).
  unfold rankCells_val. rewrite Hcells. reflexivity.
Qed.

(** X5. Only the clock ends a search early, and it does so at once. When
    [maximize] or [minimize] raises [TimeoutError], the reading that reached
    the budget is the last reading of the run, and every reading before it was
    in time; when the search ends in any other way, every clock reading it
    made was in time. *)
Theorem timeout_at_first_late_reading (depth : nat) (grid : loc) (board : Grid)
    (alpha beta : pyfloat) (moveStartTime : Q) (s s' : state)
    (out : result (pyfloat * option Move)) :
  heap s !! grid = Some board ->
  maximize depth grid alpha beta moveStartTime s = (out, s') \/
  minimize depth grid alpha beta moveStartTime s = (out, s') ->
  (out = Raise TimeoutError ->
   (ticks s < ticks s')%nat /\
   expired moveStartTime (pred (ticks s')) = true /\
   forall k, (ticks s <= k < pred (ticks s'))%nat ->
             expired moveStartTime k = false) /\
  (out <> Raise TimeoutError ->
   (ticks s <= ticks s')%nat /\
   forall k, (ticks s <= k < ticks s')%nat -> expired moveStartTime k = false).
Proof.
  intros H Hrun.
  assert (exists rv, runs_as moveStartTime s (out, s') rv /\ quiet rv)
    as (rv & Hr & Hq).
  { destruct (search_runs moveStartTime depth) as [Rmax Rmin].
    destruct (quiet_search depth) as [Qmax Qmin].
    destruct Hrun as [<- | <-]; eexists; split; eauto. }
  destruct Hr as [[Ho (Hp & Ht & Hc)]|[Ho (Hp & Ht & He & Hc)]]; simpl in *.
  - subst rv. split; [intros ->; now destruct Hq|auto].
  - split; [auto|intros Hne; contradiction].
Qed.

Lemma getMove_loop_stops (grid : loc) (board : Grid) (start : Q) (K : nat) :
  wf board -> expired start K = true ->
  forall fuel depth bestMove s,
    heap s !! grid = Some board -> (ticks s <= K)%nat ->
    (forall k, (ticks s <= k < K)%nat -> expired start k = false) ->
    (K - ticks s < fuel)%nat ->
    exists r s',
      getMove_loop fuel grid start depth bestMove s = (Ok (Some r), s') /\
      ticks s' = S K.
Proof.
  intros Hwf HK. induction fuel as [|fuel IH];
    intros depth bestMove s H Hle Hin Hfuel; [lia|].
  rewrite getMove_loop_S.
  destruct (expired start (ticks s)) eqn:He.
  { assert (ticks s = K) as E.
    { destruct (Nat.eq_dec (ticks s) K) as [E|E]; [exact E|].
      rewrite Hin in He by lia. discriminate. }
    eexists _, _. split; [reflexivity|]. simpl. now rewrite E. }
  assert (ticks s <> K) as Hne by (intros E; rewrite E in He; congruence).
  destruct (maximize_round depth grid board start (tick s) Hwf H)
    as (s1 & [(v & -> & Hrec & Hc)|[-> Ht]]).
  - destruct Hc as (Hp & Hticks & Hclean). simpl in Hticks, Hclean.
    assert (ticks s1 <= K)%nat as Hle1.
    { destruct (Nat.le_gt_cases (ticks s1) K) as [|Hgt]; [assumption|].
      rewrite Hclean in HK by lia. discriminate. }
    apply IH; [|assumption| |lia].
    + now apply (prefix_lookup_Some (heap (tick s))).
    + intros k Hk. apply Hin. lia.
  - destruct Ht as (_ & Hlt & Hexp & Hbefore). simpl in Hlt, Hbefore.
    eexists _, _. split; [reflexivity|].
    destruct (Nat.lt_trichotomy (pred (ticks s1)) K) as [Hk|[Hk|Hk]].
    + rewrite Hin in Hexp by lia. discriminate.
    + lia.
    + rewrite Hbefore in HK by lia. discriminate.
Qed.

(** X6. [getMove] overruns its budget by at most one reading of the clock:
    with [K] the first reading that reaches the budget, the call returns a
    move (or [None]) and the clock has then been read exactly up to [K]. *)
Theorem getMove_stops_at_first_late_reading (grid : loc) (board : Grid)
    (s : state) (K fuel : nat) :
  wf board ->
  heap s !! grid = Some board ->
  (ticks s < K)%nat ->
  expired (now (ticks s)) K = true ->
  (forall k, (ticks s < k < K)%nat -> expired (now (ticks s)) k = false) ->
  (K - ticks s <= fuel)%nat ->
  exists bestMove s',
    getMove fuel grid s = (Ok (Some bestMove), s') /\ ticks s' = S K.
Proof.
  intros Hwf H Hlt HK Hin Hfuel.
  destruct (getMove_loop_stops grid board (now (ticks s)) K Hwf HK fuel 1 None
              (tick s) H) as ([best d] & s' & Hrun & Hticks); simpl; try lia.
  { intros k Hk. apply Hin. lia. }
  exists best, s'. split; [|exact Hticks].
  rewrite getMove_run, Hrun. reflexivity.
Qed.

Lemma getMove_loop_goes_on (grid : loc) (board : Grid) (start : Q) :
  wf board -> (forall k, expired start k = false) ->
  forall fuel depth bestMove s,
    heap s !! grid = Some board ->
    exists s', getMove_loop fuel grid start depth bestMove s = (Ok None, s').
Proof.
  intros Hwf Hnever. induction fuel as [|fuel IH]; intros depth bestMove s H.
  - exists s. reflexivity.
  - rewrite getMove_loop_S, Hnever.
    destruct (maximize_round depth grid board start (tick s) Hwf H)
      as (s1 & [(v & -> & Hrec & Hc)|[-> Ht]]).
    + apply IH. now apply (clean_lookup start (tick s) s1).
    + destruct Ht as (_ & _ & Hexp & _). rewrite Hnever in Hexp. discriminate.
Qed.

(** X7. Nothing but the clock ends the deepening loop of [getMove]: while no
    reading reaches the budget the loop starts round after round, so however
    many rounds are allowed the call has not returned. *)
Theorem getMove_needs_the_clock (grid : loc) (board : Grid) (s : state) :
  wf board ->
  heap s !! grid = Some board ->
  (forall k, expired (now (ticks s)) k = false) ->
  forall fuel, exists s', getMove fuel grid s = (Ok None, s').
Proof.
  intros Hwf H Hnever fuel.
  destruct (getMove_loop_goes_on grid board (now (ticks s)) Hwf Hnever fuel 1
              None (tick s) H) as (s' & Hrun).
  exists s'. rewrite getMove_run, Hrun. reflexivity.
Qed.

(** X8. [getMove] handles [TimeoutError] only. On a root board without a
    legal move the first round evaluates the board itself, and an exception
    raised there leaves [getMove] as it is, after the two clock readings made
    so far. *)
Theorem getMove_lets_other_errors_out (fuel : nat) (grid : loc) (board : Grid)
    (s : state) (e : exn) :
  heap s !! grid = Some board ->
  canMove board = false ->
  evaluate board = Raise e ->
  expired (now (ticks s)) (S (ticks s)) = false ->
  getMove (S fuel) grid s = (Raise e, tick (tick s)).
Proof.
  intros H Hmv He Hin.
  assert (e <> TimeoutError) as Hne.
  { intros ->. now apply (quiet_evaluate board). }
  rewrite getMove_run, getMove_loop_S. simpl ticks. rewrite Hin.
  rewrite (maximize_S 0 grid board NegInf PosInf (now (ticks s))
             (tick (tick s)) H), Hmv.
  unfold leaf. rewrite He. simpl. now destruct e.
Qed.

Lemma index_error {A : Type} (l : list A) (i : nat) (e : exn) :
  index l i = Raise e -> e = IndexError.
Proof. unfold index. destruct (l !! i); congruence. Qed.

Lemma cellValue_error (grid : Grid) (x y : nat) (e : exn) :
  cellValue grid x y = Raise e -> e = IndexError.
Proof.
  unfold cellValue. destruct (index (map grid) x) as [row|e'] eqn:Hx; simpl.
  - apply index_error.
  - intros [= <-]. now apply index_error in Hx.
Qed.

Lemma for_in_error {A S : Type} (l : list A) (body : A -> S -> result S)
    (e : exn) :
  (forall a s e', a ∈ l -> body a s = Raise e' -> e' = e) ->
  forall s e', for_in l body s = Raise e' -> e' = e.
Proof.
  induction l as [|a l IH]; intros Hbody s e'; simpl; [discriminate|].
  destruct (body a s) as [s1|e1] eqn:Ha; simpl.
  - apply IH. intros a' s' e2 Hin. apply Hbody. now right.
  - intros [= <-]. apply (Hbody a s); [left|exact Ha].
Qed.

Lemma for_in_raises {A S : Type} (l : list A) (body : A -> S -> result S)
    (e : exn) (a : A) :
  (forall a s e', a ∈ l -> body a s = Raise e' -> e' = e) ->
  a ∈ l -> (forall s, exists e', body a s = Raise e') ->
  forall s, for_in l body s = Raise e.
Proof.
  intros Hbody Hin Ha s.
  destruct (for_in l body s) as [s'|e'] eqn:Hrun.
  - exfalso. revert s Hrun. induction l as [|b l IH]; intros s Hrun.
    + now apply elem_of_nil in Hin.
    + simpl in Hrun. destruct (body b s) as [s1|e1] eqn:Hb; [|discriminate].
      simpl in Hrun. apply elem_of_cons in Hin as [->|Hin].
      * destruct (Ha s) as [e' He']. congruence.
      * apply (IH ltac:(intros a' s2 e2 Hin'; apply Hbody; now right) Hin
                 s1 Hrun).
  - f_equal. now apply (for_in_error l body e Hbody s e').
Qed.

Lemma calcSnakeAdherence_oversized (grid : Grid) :
  (4 < size grid)%nat -> calcSnakeAdherence grid = Raise IndexError.
Proof.
  intros Hs. unfold calcSnakeAdherence.
  assert (forall x (a : nat) (acc : Z) e',
            (v ← cellValue grid x a;
             row ← index snakeShapedWeights x;
             w ← index row a; Ok (acc + v * w)) = Raise e' ->
            e' = IndexError) as Hcell.
  { intros x a acc e'.
    destruct (cellValue grid x a) as [v|e1] eqn:Hv; simpl.
    2:{ intros [= <-]. now apply cellValue_error in Hv. }
    destruct (index snakeShapedWeights x) as [row|e1] eqn:Hrow; simpl.
    2:{ intros [= <-]. now apply index_error in Hrow. }
    destruct (index row a) as [w|e1] eqn:Hw; simpl; [discriminate|].
    intros [= <-]. now apply index_error in Hw. }
  apply (for_in_raises _ _ IndexError 0%nat).
  - intros x acc e' _. apply for_in_error. intros y acc' e2 _. apply Hcell.
  - apply elem_of_seq. lia.
  - intros acc. exists IndexError.
    apply (for_in_raises _ _ IndexError 4%nat).
    + intros y acc' e2 _. apply Hcell.
    + apply elem_of_seq. lia.
    + intros acc'. destruct (cellValue grid 0 4) as [v|e1]; simpl; eauto.
Qed.

(** X9. The snake table fixes the board at 4x4: on every board whose [size]
    is greater than 4, whatever its map holds, [evaluate] raises
    [IndexError]. *)
Theorem evaluate_oversized (grid : Grid) :
  (4 < size grid)%nat -> evaluate grid = Raise IndexError.
Proof.
  intros Hs. unfold evaluate.
  now rewrite (calcSnakeAdherence_oversized grid Hs).
Qed.

(** ** The sub-scores *)

Lemma abs_add_zero (t r : Z) : 0 <= r -> Z.abs t + r = 0 -> t = 0 /\ r = 0.
Proof. lia. Qed.

Ltac abs_sum_nonneg :=
  repeat (apply Z.add_nonneg_nonneg; [apply Z.abs_nonneg|]); reflexivity.

(** X10. The smoothness sub-score is never positive, and it is 0 exactly on
    the boards whose 16 cells all hold the same value. *)
Theorem calcSmoothness_nonpositive (grid : Grid) :
  wf grid ->
  exists smoothness,
    calcSmoothness grid = Ok smoothness /\
    smoothness <= 0 /\
    (smoothness = 0 <->
     forall cell, in_board cell -> tile grid cell = tile grid (0%nat, 0%nat)).
Proof.
  intros Hwf. exists (smoothnessOf grid).
  split; [now apply calcSmoothness_sum|].
  grid_inv Hwf. unfold smoothnessOf. simpl. unfold tile. simpl.
  split; [apply Z.opp_nonpos_nonneg; abs_sum_nonneg|]. split.
  - intros Hz cell Hc.
    apply (f_equal Z.opp) in Hz. rewrite Z.opp_involutive in Hz.
    change (- 0) with 0 in Hz.
    repeat match goal with
    | H : Z.abs ?t + ?r = 0 |- _ =>
        apply abs_add_zero in H; [destruct H as [? H]|abs_sum_nonneg]
    end.
    destruct (in_board_cases _ Hc) as (x & y & -> & Hx & Hy).
    destruct Hx as [->|[->|[->| ->]]]; destruct Hy as [->|[->|[->| ->]]];
      simpl; lia.
  - intros Hall.
    assert (forall x y, (x < 4)%nat -> (y < 4)%nat ->
              match cellValue
                      (mkGrid 4 [ [a0; a1; a2; a3]; [b0; b1; b2; b3];
                                  [c0; c1; c2; c3]; [d0; d1; d2; d3] ]) x y
              with Ok v => v | Raise _ => 0 end = a0) as Heq.
    { intros x y Hx Hy. apply (Hall (x, y)). now split. }
    pose proof (Heq 0%nat 1%nat ltac:(lia) ltac:(lia)) as E01.
    pose proof (Heq 0%nat 2%nat ltac:(lia) ltac:(lia)) as E02.
    pose proof (Heq 0%nat 3%nat ltac:(lia) ltac:(lia)) as E03.
    pose proof (Heq 1%nat 0%nat ltac:(lia) ltac:(lia)) as E10.
    pose proof (Heq 1%nat 1%nat ltac:(lia) ltac:(lia)) as E11.
    pose proof (Heq 1%nat 2%nat ltac:(lia) ltac:(lia)) as E12.
    pose proof (Heq 1%nat 3%nat ltac:(lia) ltac:(lia)) as E13.
    pose proof (Heq 2%nat 0%nat ltac:(lia) ltac:(lia)) as E20.
    pose proof (Heq 2%nat 1%nat ltac:(lia) ltac:(lia)) as E21.
    pose proof (Heq 2%nat 2%nat ltac:(lia) ltac:(lia)) as E22.
    pose proof (Heq 2%nat 3%nat ltac:(lia) ltac:(lia)) as E23.
    pose proof (Heq 3%nat 0%nat ltac:(lia) ltac:(lia)) as E30.
    pose proof (Heq 3%nat 1%nat ltac:(lia) ltac:(lia)) as E31.
    pose proof (Heq 3%nat 2%nat ltac:(lia) ltac:(lia)) as E32.
    pose proof (Heq 3%nat 3%nat ltac:(lia) ltac:(lia)) as E33.
    clear Hall Heq. simpl in *. subst. rewrite !Z.sub_diag. reflexivity.
Qed.

(** X11. The penalty of the corner sub-score needs no absolute value: when
    the cell at row 0, column 0 does not hold the greatest tile [m], the
    sub-score is the corner value minus [m], a strictly negative number. With
    [m] not negative, the sub-score is negative exactly in that case. *)
Theorem checkMaxTileInCorner_penalty (grid : Grid) (m : Z) :
  wf grid -> is_max_tile grid m ->
  exists score,
    checkMaxTileInCorner grid = Ok score /\
    (tile grid (0%nat, 0%nat) <> m ->
     score = tile grid (0%nat, 0%nat) - m /\ score < 0) /\
    (0 <= m -> (score < 0 <-> tile grid (0%nat, 0%nat) <> m)).
Proof.
  intros Hwf Hm.
  destruct (checkMaxTileInCorner_value grid Hwf) as (m' & Hm' & Hscore).
  rewrite (is_max_tile_unique grid m' m Hm' Hm) in Hscore.
  eexists. split; [exact Hscore|].
  destruct Hm as [_ Hle].
  assert (tile grid (0%nat, 0%nat) <= m) as Hcorner
    by (apply Hle; split; simpl; lia).
  destruct (Z.eqb_spec (tile grid (0%nat, 0%nat)) m) as [E|E].
  - split; [contradiction|]. intros Hpos. split; [lia|contradiction].
  - split; [intros _; lia|]. intros _. split; [auto|lia].
Qed.

Lemma index_any_nat {A : Type} (l : list A) (i : nat) :
  index_any l (Z.of_nat i) = index l i.
Proof.
  unfold index_any. destruct (Z.leb_spec 0 (Z.of_nat i)); [|lia].
  now rewrite Nat2Z.id.
Qed.

Lemma index_any_outside {A : Type} (l : list A) (i : Z) :
  ~ (- Z.of_nat (length l) <= i < Z.of_nat (length l)) ->
  index_any l i = Raise IndexError.
Proof.
  intros Hout. unfold index_any, index.
  destruct (Z.leb_spec 0 i).
  - rewrite lookup_ge_None_2; [reflexivity|lia].
  - destruct (Z.leb_spec 0 (Z.of_nat (length l) + i)); [lia|reflexivity].
Qed.

(** X12. The snake table is 4 to the power of the place on the snake: for a
    cell of the board [getCellSnakeImportance] returns [4 ^ snakeRank], and
    for a cell with a coordinate of 4 or more it raises [IndexError]. The 16
    places are the numbers 0 to 15, and cells whose places follow each other
    share a side: the path is connected. Called with any two integers, where
    a negative index counts from the end, the function agrees with this on
    coordinates that are not negative, returns the weight of the cell
    [(x mod 4, y mod 4)] when both coordinates lie between -4 and 3, and
    raises [IndexError] exactly when one of them does not. *)
Theorem getCellSnakeImportance_snake {G : Type} (grid : G) (cell : Cell) :
  (in_board cell ->
   getCellSnakeImportance grid cell = Ok (4 ^ snakeRank cell) /\
   0 <= snakeRank cell <= 15) /\
  (~ in_board cell -> getCellSnakeImportance grid cell = Raise IndexError) /\
  (forall cell', in_board cell -> in_board cell' ->
                 snakeRank cell' = snakeRank cell + 1 ->
                 neighbours cell cell') /\
  getCellSnakeImportance_any grid (Z.of_nat cell.1, Z.of_nat cell.2)
    = getCellSnakeImportance grid cell /\
  (forall x y : Z,
     (-4 <= x < 4 -> -4 <= y < 4 ->
      getCellSnakeImportance_any grid (x, y)
        = Ok (4 ^ snakeRank (Z.to_nat (x mod 4), Z.to_nat (y mod 4)))) /\
     (~ (-4 <= x < 4 /\ -4 <= y < 4) ->
      getCellSnakeImportance_any grid (x, y) = Raise IndexError)).
Proof.
  split; [|split; [|split; [|split]]].
  - intros Hc. destruct (in_board_cases _ Hc) as (x & y & -> & Hx & Hy).
    destruct Hx as [->|[->|[->| ->]]]; destruct Hy as [->|[->|[->| ->]]];
      (split; [reflexivity|vm_compute; split; discriminate]).
  - destruct cell as [x y]. unfold in_board. simpl. intros Hout.
    destruct x as [|[|[|[|x]]]]; try reflexivity;
      destruct y as [|[|[|[|y]]]]; try reflexivity; exfalso; apply Hout; lia.
  - intros cell' Hc Hc'.
    destruct (in_board_cases _ Hc) as (x & y & -> & Hx & Hy).
    destruct (in_board_cases _ Hc') as (x' & y' & -> & Hx' & Hy').
    destruct Hx as [->|[->|[->| ->]]]; destruct Hy as [->|[->|[->| ->]]];
      destruct Hx' as [->|[->|[->| ->]]]; destruct Hy' as [->|[->|[->| ->]]];
      vm_compute; congruence.
  - destruct cell as [x y]. unfold getCellSnakeImportance_any. simpl.
    rewrite index_any_nat.
    destruct (index snakeShapedWeights x) as [row|e]; [|reflexivity].
    simpl. apply index_any_nat.
  - intros x y.
    assert (-4 <= x < 4 ->
            x = -4 \/ x = -3 \/ x = -2 \/ x = -1 \/
            x = 0 \/ x = 1 \/ x = 2 \/ x = 3) as Hxs by lia.
    assert (-4 <= y < 4 ->
            y = -4 \/ y = -3 \/ y = -2 \/ y = -1 \/
            y = 0 \/ y = 1 \/ y = 2 \/ y = 3) as Hys by lia.
    split.
    + intros Hx Hy.
      destruct (Hxs Hx) as [->|[->|[->|[->|[->|[->|[->| ->]]]]]]];
        destruct (Hys Hy) as [->|[->|[->|[->|[->|[->|[->| ->]]]]]]];
        reflexivity.
    + intros Hout. unfold getCellSnakeImportance_any.
      destruct (Z_lt_le_dec x (-4)) as [Hlo|Hlo].
      { rewrite index_any_outside; [reflexivity|simpl; lia]. }
      destruct (Z_lt_le_dec x 4) as [Hhi|Hhi].
      2:{ rewrite index_any_outside; [reflexivity|simpl; lia]. }
      assert (~ (-4 <= y < 4)) as Hy by lia.
      destruct (Hxs (conj Hlo Hhi)) as [->|[->|[->|[->|[->|[->|[->| ->]]]]]]];
        (apply index_any_outside; simpl; lia).
Qed.

(** ** The chance layer *)

(** X13. The chance layer never looks at the probabilities of the two tile
    values: the loop over [(tileValue, probability)] runs the same with any
    other probabilities beside the same values. *)
Theorem tile_probabilities_unused (maximize : search) (grid : loc)
    (cell : Cell) (tiles tiles' : list (Z * Q))
    (alpha beta minStateUtility : pyfloat) (s : state) :
  tiles.*1 = tiles'.*1 ->
  min_tiles maximize grid cell tiles alpha beta minStateUtility s =
  min_tiles maximize grid cell tiles' alpha beta minStateUtility s.
Proof.
  revert tiles' alpha beta minStateUtility s.
  induction tiles as [|[t p] tiles IH];
    intros [|[t' p'] tiles'] alpha beta mu s Heq; try discriminate;
    [reflexivity|].
  injection Heq as <- Heq. cbn [min_tiles]. rewrite !run_bind.
  destruct (grid_clone grid s) as [[child|e] s1]; [|reflexivity].
  rewrite !run_bind.
  destruct (grid_setCellValue child cell t s1) as [[[]|e] s2]; [|reflexivity].
  rewrite !run_bind.
  destruct (maximize child alpha beta s2) as [[[u x]|e] s3]; [|reflexivity].
  destruct (fle (fmin beta u) alpha); [reflexivity|now apply IH].
Qed.

Lemma fmin_fold_lower (l : list pyfloat) (acc u : pyfloat) :
  u ∈ l -> lef (fold_left fmin l acc) u.
Proof.
  revert acc. induction l as [|u0 l IH]; intros acc Hin; simpl.
  - now apply elem_of_nil in Hin.
  - apply elem_of_cons in Hin as [->|Hin]; [|now apply IH].
    eapply lef_trans; [apply fmin_fold_le|]. fl_order.
Qed.

Lemma placements_elem (cells : list Cell) (cell : Cell) (tileValue : Z) :
  (cell, tileValue) ∈ placements cells <->
  cell ∈ cells /\ tileValue ∈ [2; 4].
Proof.
  unfold placements. rewrite list_elem_of_bind. split.
  - intros (c & Hin & Hc). apply list_elem_of_bind in Hin as (t & Hin & Ht).
    apply list_elem_of_singleton in Hin. injection Hin as -> ->.
    split; [exact Hc|]. unfold possibleTileProbabilities in Ht.
    apply elem_of_cons in Ht as [->|Ht]; [left|].
    apply elem_of_cons in Ht as [->|Ht]; [right; left|].
    now apply elem_of_nil in Ht.
  - intros [Hc Ht]. exists cell. split; [|exact Hc].
    apply list_elem_of_bind.
    apply elem_of_cons in Ht as [->|Ht].
    { exists (2, 0.9%Q). split; [now apply list_elem_of_singleton|left]. }
    apply elem_of_cons in Ht as [->|Ht].
    { exists (4, 0.1%Q). split; [now apply list_elem_of_singleton|right; left]. }
    now apply elem_of_nil in Ht.
Qed.

(** X14. A chance node is a worst case, not an expectation. With the full
    window and the clock in time, [chance] on a board that can move returns
    the least utility over the ranked cells and both tile values: no
    placement has a smaller minimax value and, when there is a cell to fill,
    some placement has exactly that value. *)
Theorem chance_takes_worst_case (depth : nat) (grid : loc) (board : Grid)
    (moveStartTime : Q) (s : state) :
  wf board ->
  heap s !! grid = Some board ->
  (forall k, expired moveStartTime k = false) ->
  canMove board = true ->
  exists cells utility s',
    rankCells grid s = (Ok cells, s) /\
    chance (S depth) grid NegInf PosInf moveStartTime s
      = (Ok (utility, None), s') /\
    (forall cell tileValue child u move,
       cell ∈ cells -> tileValue ∈ [2; 4] ->
       setCellValue board cell tileValue = Ok child ->
       minimax_max depth child = Ok (u, move) -> lef utility u) /\
    (cells <> [] ->
     exists cell tileValue child move,
       cell ∈ cells /\ tileValue ∈ [2; 4] /\
       setCellValue board cell tileValue = Ok child /\
       minimax_max depth child = Ok (utility, move)).
Proof.
  intros Hwf H Hnever Hmv.
  destruct (full_window_search (S depth) grid board moveStartTime s
              Hwf H Hnever) as [_ (v & s' & Hv & Hrun)].
  rewrite minimax_min_S, Hmv in Hv. simpl in Hv.
  destruct (rankCells_val board) as [cells|e] eqn:Hr; [|discriminate].
  simpl in Hv.
  destruct (mapM _ (placements cells)) as [vs|e] eqn:Hs; [|discriminate].
  simpl in Hv. injection Hv as <-. apply mapM_Ok_inv in Hs.
  exists cells, (least_of vs), s'.
  split; [now rewrite (run_rankCells grid board s H), Hr|].
  split; [exact Hrun|]. split.
  - intros cell tileValue child u move Hc Ht Hset Hu.
    assert ((cell, tileValue) ∈ placements cells) as Hin
      by now apply placements_elem.
    apply list_elem_of_lookup in Hin as [i Hi].
    destruct (Forall2_lookup_l _ _ _ _ _ Hs Hi) as (u' & Hi' & Hf).
    simpl in Hf. rewrite Hset in Hf. simpl in Hf. rewrite Hu in Hf.
    simpl in Hf. injection Hf as <-.
    apply fmin_fold_lower. now apply list_elem_of_lookup_2 with i.
  - intros Hne.
    assert (least_of vs ∈ vs) as Hin.
    { destruct (fmin_fold_in vs PosInf) as [Heq|Hin]; [|exact Hin].
      destruct cells as [|cell cells]; [contradiction|].
      change (placements (cell :: cells))
        with ((cell, 2) :: (cell, 4) :: placements cells) in Hs.
      inversion Hs as [|? u0 ? vs' _ _]; subst.
      assert (lef (least_of (u0 :: vs')) u0) as Hle
        by (apply fmin_fold_lower; left).
      unfold least_of in *. rewrite Heq in *.
      apply lef_PosInf in Hle. subst. left. }
    apply list_elem_of_lookup in Hin as [i Hi].
    destruct (Forall2_lookup_r _ _ _ _ _ Hs Hi) as ([cell tileValue] & Hp & Hf).
    simpl in Hf.
    destruct (setCellValue board cell tileValue) as [child|e] eqn:Hset;
      [|discriminate].
    simpl in Hf.
    destruct (minimax_max depth child) as [[u move]|e] eqn:Hu; [|discriminate].
    simpl in Hf. injection Hf as Hf. subst u.
    apply list_elem_of_lookup_2 in Hp. apply placements_elem in Hp as [Hc Ht].
    exists cell, tileValue, child, move. auto.
Qed.

(** ** The first round of the deepening loop *)

(** X15. One completed round is enough for an answer, and the first round
    reads the clock only once, at the root: its chance nodes are leaves. So
    on a board that can move, when the first test of the loop and the test at
    the root of the first round are both in time, whatever [getMove] returns
    afterwards is a move, never [None]. *)
Theorem getMove_answers_after_first_round (grid : loc) (board : Grid)
    (s s' : state) (fuel : nat) (bestMove : option Move) :
  wf board ->
  heap s !! grid = Some board ->
  canMove board = true ->
  expired (now (ticks s)) (S (ticks s)) = false ->
  expired (now (ticks s)) (S (S (ticks s))) = false ->
  getMove fuel grid s = (Ok (Some bestMove), s') ->
  exists move, bestMove = Some move.
Proof.
  intros Hwf H Hmv He1 He2. rewrite getMove_run.
  destruct fuel as [|fuel]; [discriminate|].
  rewrite getMove_loop_S. simpl ticks. rewrite He1.
  pose proof (maximize_1_reads_once grid board NegInf PosInf (now (ticks s))
                (tick (tick s)) H Hmv) as Hticks.
  destruct (maximize_round 1 grid board (now (ticks s)) (tick (tick s)) Hwf H)
    as (s1 & [(v & Hrun & Hrec & Hc)|[Hrun Ht]]);
    rewrite Hrun in *; simpl in Hticks.
  2:{ destruct Ht as (_ & _ & Hexp & _). rewrite Hticks in Hexp.
      simpl in Hexp. rewrite He2 in Hexp. discriminate. }
  assert (recorded board 1 <> None) as Hfirst.
  { destruct Hrec as [Hd|[Hd|Hd]]; [discriminate|congruence|exact Hd]. }
  destruct (recorded board 1) as [m1|] eqn:Hm1; [|contradiction].
  destruct (getMove_loop_result grid board (now (ticks s)) fuel Hwf 2 s1)
    as (r & s2 & Hloop & Hres); [|lia|].
  { now apply (clean_lookup (now (ticks s)) (tick (tick s)) s1). }
  change (2 - 1)%nat with 1%nat in Hloop. rewrite Hm1 in Hloop.
  rewrite Hloop. destruct r as [[best d]|]; [|discriminate].
  intros [= <- <-]. destruct (Hres best d eq_refl) as [Hd ->].
  destruct (recorded board (d - 1)) as [m|] eqn:Hm; [now exists m|].
  apply (recorded_None board (d - 1) Hwf) in Hm as [Hm|Hm]; [congruence|lia].
Qed.

End Agent.

(** * The rules of 2048 keep the Grid contract *)

Module RulesFacts.

Lemma merge_length (cells : list Z) :
  (length (Rules.merge cells) <= length cells)%nat.
Proof.
  remember (length cells) as n eqn:Hn. revert cells Hn.
  induction n as [n IH] using lt_wf_ind. intros cells ->.
  destruct cells as [|a [|b rest]]; simpl; auto.
  destruct (a =? b); simpl.
  - specialize (IH (length rest) ltac:(simpl; lia) rest eq_refl). lia.
  - specialize (IH (length (b :: rest)) ltac:(simpl; lia) (b :: rest) eq_refl).
    simpl in IH. lia.
Qed.

Lemma slide_length (row : list Z) : length (Rules.slide row) = length row.
Proof.
  unfold Rules.slide. rewrite length_app, length_replicate.
  pose proof (merge_length (filter (fun v => v ≠ 0) row)).
  pose proof (length_filter (fun v => v ≠ 0) row). lia.
Qed.

Lemma rows_ok_inv (rows : list (list Z)) :
  rows_ok rows ->
  exists a0 a1 a2 a3 b0 b1 b2 b3 c0 c1 c2 c3 d0 d1 d2 d3,
    rows = [ [a0; a1; a2; a3]; [b0; b1; b2; b3];
             [c0; c1; c2; c3]; [d0; d1; d2; d3] ].
Proof.
  intros [Hl Hr].
  destruct (wf_inv (mkGrid 4 rows)) as
    (a0 & a1 & a2 & a3 & b0 & b1 & b2 & b3 &
     c0 & c1 & c2 & c3 & d0 & d1 & d2 & d3 & [= ->]).
  { now repeat split. }
  repeat eexists.
Qed.

Lemma transpose_ok (rows : list (list Z)) :
  rows_ok rows -> rows_ok (Rules.transpose rows).
Proof.
  intros H. destruct (rows_ok_inv rows H) as
    (a0 & a1 & a2 & a3 & b0 & b1 & b2 & b3 &
     c0 & c1 & c2 & c3 & d0 & d1 & d2 & d3 & ->).
  split; simpl; [reflexivity|repeat constructor].
Qed.

Lemma fmap_ok (f : list Z -> list Z) (rows : list (list Z)) :
  (forall row, length (f row) = length row) ->
  rows_ok rows -> rows_ok (f <$> rows).
Proof.
  intros Hf [Hl Hr]. split; [now rewrite length_fmap|].
  apply Forall_fmap. eapply Forall_impl; [exact Hr|].
  intros row Hrow. simpl. now rewrite Hf.
Qed.

Lemma move_ok (dir : Move) (rows : list (list Z)) :
  rows_ok rows -> rows_ok (Rules.move dir rows).
Proof.
  intros H.
  assert (forall row,
            length (reverse (Rules.slide (reverse row))) = length row) as Hrev.
  { intros row. now rewrite length_reverse, slide_length, length_reverse. }
  destruct dir; simpl.
  - apply transpose_ok, fmap_ok; [apply slide_length|now apply transpose_ok].
  - apply transpose_ok, fmap_ok; [apply Hrev|now apply transpose_ok].
  - apply fmap_ok; [apply slide_length|assumption].
  - apply fmap_ok; [apply Hrev|assumption].
Qed.

Lemma getAvailableMoves_wf (grid : Grid) (move : Move) (child : Grid) :
  wf grid -> (move, child) ∈ Rules.getAvailableMoves grid -> wf child.
Proof.
  intros (Hs & Hrows) Hin. unfold Rules.getAvailableMoves in Hin.
  apply list_elem_of_omap in Hin as (dir & _ & Hdir).
  destruct (decide _); [discriminate|]. injection Hdir as <- <-.
  destruct (move_ok dir (map grid) Hrows) as [Hl Hr].
  now repeat split.
Qed.

Lemma canMove_spec (grid : Grid) :
  wf grid ->
  (Rules.canMove grid = true <-> Rules.getAvailableMoves grid <> []).
Proof.
  intros _. unfold Rules.canMove.
  destruct (Rules.getAvailableMoves grid); split; congruence.
Qed.

Lemma getAvailableCells_spec (grid : Grid) :
  wf grid ->
  NoDup (Rules.getAvailableCells grid) /\
  forall x y, (x, y) ∈ Rules.getAvailableCells grid <->
              cellValue grid x y = Ok 0.
Proof.
  intros Hwf. pose proof Hwf as (Hs & _). unfold Rules.getAvailableCells.
  rewrite Hs. split.
  - apply NoDup_filter. apply (bool_decide_unpack _). vm_compute. exact I.
  - intros x y. rewrite list_elem_of_filter. unfold Rules.isEmpty. simpl.
    split.
    + intros [He _]. destruct (cellValue grid x y) as [v|e]; [|discriminate].
      apply Z.eqb_eq in He. now subst.
    + intros He. rewrite He. split; [reflexivity|].
      apply (cellValue_in_board grid x y 0 Hwf) in He as [Hx Hy].
      simpl in Hx, Hy.
      destruct x as [|[|[|[|x]]]]; try lia;
        destruct y as [|[|[|[|y]]]]; try lia;
        apply (bool_decide_unpack _); vm_compute; exact I.
Qed.

End RulesFacts.

(** * The ranking does not depend on the enumeration order *)

Lemma snake_weights_powers :
  concat snakeShapedWeights ≡ₚ (fun k => 4 ^ Z.of_nat k) <$> seq 0 16.
Proof. apply (bool_decide_unpack _). vm_compute. exact I. Qed.

(** C10. The 16 entries of the snake table are the pairwise distinct powers
    [4^0 .. 4^15], so two different cells never tie. Hence the ranked top four
    are fixed by the coordinates of the empty cells: two enumerations of the
    same cells, in whatever order, give the chance layer the same list, and
    that list is strictly descending in weight. *)
Theorem ranking_order_independent :
  concat snakeShapedWeights ≡ₚ (fun k => 4 ^ Z.of_nat k) <$> seq 0 16 /\
  (forall c1 c2, in_board c1 -> in_board c2 -> c1 <> c2 ->
                 weightOf c1 <> weightOf c2) /\
  (forall (cellsA cellsB : Grid -> list Cell) (grid : loc) (board : Grid)
          (s : state),
     heap s !! grid = Some board ->
     Forall in_board (cellsA board) -> NoDup (cellsA board) ->
     cellsA board ≡ₚ cellsB board ->
     exists cells,
       rankCells cellsA grid s = (Ok cells, s) /\
       rankCells cellsB grid s = (Ok cells, s) /\
       StronglySorted (fun c1 c2 => weightOf c2 < weightOf c1) cells).
Proof.
  split; [exact snake_weights_powers|]. split.
  - intros c1 c2 H1 H2 Hne Heq. apply Hne. now apply weightOf_inj.
  - intros cellsA cellsB grid board s H Hb Hnd Hp.
    destruct (sorted_reverse_rank board (cellsA board) Hb)
      as (rankedA & HsA & HpA & HsortA).
    assert (Forall in_board (cellsB board)) as Hb' by now rewrite <- Hp.
    destruct (sorted_reverse_rank board (cellsB board) Hb')
      as (rankedB & HsB & HpB & HsortB).
    assert (rankedA = rankedB) as <-.
    { apply heavier_unique; auto; [now rewrite HpA|now rewrite HpA, HpB]. }
    exists (take 4 rankedA). split; [|split].
    + rewrite (run_rankCells cellsA grid board s H).
      unfold rankCells_val. now rewrite HsA.
    + rewrite (run_rankCells cellsB grid board s H).
      unfold rankCells_val. now rewrite HsB.
    + apply (StronglySorted_app_1_l _ _ (drop 4 rankedA)).
      rewrite take_drop. apply heavier_strict; auto; now rewrite HpA.
Qed.

(** * A completed search does not depend on the clock *)

(** X2. A search that completes returns a result fixed by the board, the
    depth and the window alone: two runs on Grid objects holding the same
    board, with different clocks, start times and stores, that both return,
    return the same utility and move. The clock decides only whether the
    search completes. *)
Theorem completed_search_is_reproducible
    (canMove : Grid -> bool) (getAvailableMoves : Grid -> list (Move * Grid))
    (getAvailableCells : Grid -> list Cell) (now1 now2 : nat -> Q)
    (depth : nat) (grid1 grid2 : loc) (board : Grid) (alpha beta : pyfloat)
    (start1 start2 : Q) (s1 s2 s1' s2' : state)
    (r1 r2 : pyfloat * option Move) :
  heap s1 !! grid1 = Some board ->
  heap s2 !! grid2 = Some board ->
  (maximize canMove getAvailableMoves getAvailableCells now1
     depth grid1 alpha beta start1 s1 = (Ok r1, s1') ->
   maximize canMove getAvailableMoves getAvailableCells now2
     depth grid2 alpha beta start2 s2 = (Ok r2, s2') ->
   r1 = r2) /\
  (minimize canMove getAvailableMoves getAvailableCells now1
     depth grid1 alpha beta start1 s1 = (Ok r1, s1') ->
   minimize canMove getAvailableMoves getAvailableCells now2
     depth grid2 alpha beta start2 s2 = (Ok r2, s2') ->
   r1 = r2).
Proof.
  intros H1 H2.
  destruct (search_runs canMove getAvailableMoves getAvailableCells now1
              start1 depth) as [Rmax1 Rmin1].
  destruct (search_runs canMove getAvailableMoves getAvailableCells now2
              start2 depth) as [Rmax2 Rmin2].
  split; intros E1 E2.
  - destruct (Rmax1 grid1 board alpha beta s1 H1) as [[Ho1 _]|[Ho1 _]];
      rewrite E1 in Ho1; simpl in Ho1; [|discriminate].
    destruct (Rmax2 grid2 board alpha beta s2 H2) as [[Ho2 _]|[Ho2 _]];
      rewrite E2 in Ho2; simpl in Ho2; [|discriminate].
    congruence.
  - destruct (Rmin1 grid1 board alpha beta s1 H1) as [[Ho1 _]|[Ho1 _]];
      rewrite E1 in Ho1; simpl in Ho1; [|discriminate].
    destruct (Rmin2 grid2 board alpha beta s2 H2) as [[Ho2 _]|[Ho2 _]];
      rewrite E2 in Ho2; simpl in Ho2; [|discriminate].
    congruence.
Qed.

(** * The theorems at concrete boards, with the rules of 2048 *)

Lemma pruning_matches_minimax_witness :
  (exists utility move s',
     minimax_max Rules.canMove Rules.getAvailableMoves Rules.getAvailableCells
       2 midgame = Ok (utility, move) /\
     maximize Rules.canMove Rules.getAvailableMoves Rules.getAvailableCells
       frozen 2 0%nat NegInf PosInf 0%Q (mkState [midgame] 0)
       = (Ok (utility, move), s')) /\
  (exists utility s',
     minimax_min Rules.canMove Rules.getAvailableMoves Rules.getAvailableCells
       2 midgame = Ok (utility, None) /\
     minimize Rules.canMove Rules.getAvailableMoves Rules.getAvailableCells
       frozen 2 0%nat NegInf PosInf 0%Q (mkState [midgame] 0)
       = (Ok (utility, None), s')).
Proof.
  apply (pruning_matches_minimax Rules.canMove Rules.getAvailableMoves
           Rules.getAvailableCells frozen RulesFacts.getAvailableMoves_wf
           RulesFacts.getAvailableCells_spec 2 0%nat midgame 0%Q
           (mkState [midgame] 0)).
  - apply wf_mk.
  - reflexivity.
  - intros k. reflexivity.
Defined.

Lemma evaluate_weighted_sum_witness :
  exists m cornerBonus,
    is_max_tile midgame m /\
    cornerBonus = (if tile midgame (0%nat, 0%nat) =? m then m
                   else - Z.abs (m - tile midgame (0%nat, 0%nat))) /\
    evaluate Rules.getAvailableCells midgame =
      Ok (Fin (snakeWeight * inject_Z (snakeOf midgame) +
               smoothnessWeight * inject_Z (smoothnessOf midgame) +
               emptyCellsWeight * inject_Z (emptyCount midgame) +
               maxInCornerWeight * inject_Z cornerBonus)%Q) /\
    (0 < snakeWeight /\ 0 < smoothnessWeight /\
     0 < emptyCellsWeight /\ 0 < maxInCornerWeight)%Q.
Proof.
  apply (evaluate_weighted_sum Rules.getAvailableCells
           RulesFacts.getAvailableCells_spec midgame).
  apply wf_mk.
Defined.

Lemma rankCells_top4_witness :
  exists cells,
    rankCells Rules.getAvailableCells 0%nat (mkState [opening] 0)
      = (Ok cells, mkState [opening] 0) /\
    length cells = 4%nat.
Proof.
  destruct (rankCells_top4 Rules.getAvailableCells
              RulesFacts.getAvailableCells_spec 0%nat opening
              (mkState [opening] 0) (wf_mk _ _ _ _ _ _ _ _ _ _ _ _ _ _ _ _)
              eq_refl)
    as (cells & Hrun & _ & _ & _ & _ & Hmany & _).
  exists cells. split; [exact Hrun|].
  apply Hmany. vm_compute. lia.
Defined.

Lemma maximize_terminal_witness :
  maximize Rules.canMove Rules.getAvailableMoves Rules.getAvailableCells
    ticking 3 0%nat NegInf PosInf 0%Q (mkState [stuck] 7)
  = (u ← evaluate Rules.getAvailableCells stuck; Ok (u, None),
     mkState [stuck] 7).
Proof.
  apply (maximize_terminal Rules.canMove Rules.getAvailableMoves
           Rules.getAvailableCells ticking 3 0%nat stuck NegInf PosInf 0%Q
           (mkState [stuck] 7)).
  - reflexivity.
  - right. reflexivity.
Defined.

Lemma checkMaxTileInCorner_score_witness :
  (tile midgame (0%nat, 0%nat) = 16 -> checkMaxTileInCorner midgame = Ok 16) /\
  (tile midgame (0%nat, 0%nat) <> 16 ->
   checkMaxTileInCorner midgame
     = Ok (- Z.abs (16 - tile midgame (0%nat, 0%nat)))).
Proof.
  apply (checkMaxTileInCorner_score midgame 16).
  - apply wf_mk.
  - split.
    + exists (3%nat, 2%nat). split; [split; simpl; lia|reflexivity].
    + intros cell Hc.
      destruct (in_board_cases _ Hc) as (x & y & -> & Hx & Hy).
      destruct Hx as [->|[->|[->| ->]]]; destruct Hy as [->|[->|[->| ->]]];
        vm_compute; discriminate.
Defined.

Lemma getMove_keeps_board_witness :
  heap (getMove Rules.canMove Rules.getAvailableMoves Rules.getAvailableCells
          ticking 10 0%nat (mkState [midgame] 0)).2 !! 0%nat = Some midgame.
Proof.
  destruct (getMove_keeps_board Rules.canMove Rules.getAvailableMoves
              Rules.getAvailableCells ticking 10 0%nat midgame
              (mkState [midgame] 0) eq_refl) as [Hboard _].
  exact Hboard.
Defined.

Lemma first_best_move_wins_witness :
  exists i move child utility s',
    Rules.getAvailableMoves midgame !! i = Some (move, child) /\
    maximize Rules.canMove Rules.getAvailableMoves Rules.getAvailableCells
      frozen 2 0%nat NegInf PosInf 0%Q (mkState [midgame] 0)
      = (Ok (utility, Some move), s').
Proof.
  destruct (first_best_move_wins Rules.canMove Rules.getAvailableMoves
              Rules.getAvailableCells frozen RulesFacts.getAvailableMoves_wf
              RulesFacts.getAvailableCells_spec RulesFacts.canMove_spec
              1 0%nat midgame 0%Q (mkState [midgame] 0)
              (wf_mk _ _ _ _ _ _ _ _ _ _ _ _ _ _ _ _) eq_refl
              (fun k => eq_refl) eq_refl)
    as (i & move & child & utility & s' & Hi & _ & Hrun & _).
  exists i, move, child, utility, s'. split; assumption.
Defined.

Lemma getMove_returns_witness :
  exists move s',
    getMove Rules.canMove Rules.getAvailableMoves Rules.getAvailableCells
      ticking 4 0%nat (mkState [midgame] 0) = (Ok (Some (Some move)), s').
Proof.
  destruct (getMove_returns Rules.canMove Rules.getAvailableMoves
              Rules.getAvailableCells ticking
              RulesFacts.getAvailableMoves_wf
              RulesFacts.getAvailableCells_spec RulesFacts.canMove_spec
              0%nat midgame (mkState [midgame] 0)
              (wf_mk _ _ _ _ _ _ _ _ _ _ _ _ _ _ _ _) eq_refl)
    as (_ & Hends & Hresult).
  destruct (Hends 4%nat 4%nat) as (bestMove & s' & Hrun);
    [reflexivity|simpl; lia|simpl; lia|].
  destruct (Hresult 4%nat bestMove s' Hrun) as [[Hnone _] _].
  destruct bestMove as [move|]; [now exists move, s'|].
  exfalso. destruct (Hnone eq_refl) as [Hlate|[Hlate|Hlate]];
    vm_compute in Hlate; discriminate.
Defined.

Lemma timeout_after_terminal_test_witness :
  maximize Rules.canMove Rules.getAvailableMoves Rules.getAvailableCells
    ticking 2 0%nat NegInf PosInf 0%Q (mkState [midgame] 4)
  = (Raise TimeoutError, tick (mkState [midgame] 4)).
Proof.
  destruct (timeout_after_terminal_test Rules.canMove
              Rules.getAvailableMoves Rules.getAvailableCells ticking
              2 0%nat midgame NegInf PosInf 0%Q (mkState [midgame] 4)
              eq_refl) as (_ & [_ Hmax] & _).
  apply Hmax. split.
  - intros [Hd|Hmv]; discriminate.
  - reflexivity.
Defined.

Lemma ranking_order_independent_witness :
  exists cells,
    rankCells Rules.getAvailableCells 0%nat (mkState [opening] 0)
      = (Ok cells, mkState [opening] 0) /\
    rankCells (fun g => reverse (Rules.getAvailableCells g)) 0%nat
              (mkState [opening] 0)
      = (Ok cells, mkState [opening] 0).
Proof.
  destruct ranking_order_independent as (_ & _ & Hsame).
  destruct (Hsame Rules.getAvailableCells
              (fun g => reverse (Rules.getAvailableCells g))
              0%nat opening (mkState [opening] 0) eq_refl)
    as (cells & HA & HB & _).
  - apply (bool_decide_unpack _). vm_compute. exact I.
  - apply (bool_decide_unpack _). vm_compute. exact I.
  - symmetry. apply reverse_Permutation.
  - exists cells. split; assumption.
Defined.

Lemma pruned_search_fail_soft_witness :
  exists r mr s',
    maximize Rules.canMove Rules.getAvailableMoves Rules.getAvailableCells
      frozen 2 0%nat (Fin 0) PosInf 0%Q (mkState [midgame] 0)
    = (Ok (r, mr), s').
Proof.
  destruct (pruned_search_fail_soft Rules.canMove Rules.getAvailableMoves
              Rules.getAvailableCells frozen RulesFacts.getAvailableMoves_wf
              RulesFacts.getAvailableCells_spec 2 0%nat midgame (Fin 0) PosInf
              0%Q (mkState [midgame] 0)
              (wf_mk _ _ _ _ _ _ _ _ _ _ _ _ _ _ _ _) eq_refl
              (fun k => eq_refl) eq_refl)
    as [(v & mv & r & mr & s' & _ & Hrun & _) _].
  exists r, mr, s'. exact Hrun.
Defined.

Lemma completed_search_is_reproducible_witness :
  exists r s1' s2',
    maximize Rules.canMove Rules.getAvailableMoves Rules.getAvailableCells
      frozen 1 0%nat NegInf PosInf 0%Q (mkState [midgame] 0) = (Ok r, s1') /\
    maximize Rules.canMove Rules.getAvailableMoves Rules.getAvailableCells
      ticking 1 1%nat NegInf PosInf 0%Q (mkState [opening; midgame] 2)
    = (Ok r, s2').
Proof.
  assert (exists r1 s1',
            maximize Rules.canMove Rules.getAvailableMoves
              Rules.getAvailableCells frozen 1 0%nat NegInf PosInf 0%Q
              (mkState [midgame] 0) = (Ok r1, s1')) as (r1 & s1' & E1)
    by (vm_compute; eauto).
  assert (exists r2 s2',
            maximize Rules.canMove Rules.getAvailableMoves
              Rules.getAvailableCells ticking 1 1%nat NegInf PosInf 0%Q
              (mkState [opening; midgame] 2) = (Ok r2, s2'))
    as (r2 & s2' & E2) by (vm_compute; eauto).
  exists r1, s1', s2'. split; [exact E1|].
  destruct (completed_search_is_reproducible Rules.canMove
              Rules.getAvailableMoves Rules.getAvailableCells frozen ticking
              1 0%nat 1%nat midgame NegInf PosInf 0%Q 0%Q
              (mkState [midgame] 0) (mkState [opening; midgame] 2) s1' s2'
              r1 r2 eq_refl eq_refl) as [Hmax _].
  rewrite (Hmax E1 E2). exact E2.
Defined.

Lemma minimize_returns_no_move_witness :
  exists utility s',
    minimize Rules.canMove Rules.getAvailableMoves Rules.getAvailableCells
      frozen 1 0%nat NegInf PosInf 0%Q (mkState [midgame] 0)
    = (Ok (utility, None), s').
Proof.
  assert (exists utility move s',
            minimize Rules.canMove Rules.getAvailableMoves
              Rules.getAvailableCells frozen 1 0%nat NegInf PosInf 0%Q
              (mkState [midgame] 0) = (Ok (utility, move), s'))
    as (utility & move & s' & Hrun) by (vm_compute; eauto).
  exists utility, s'.
  rewrite <- (minimize_returns_no_move Rules.canMove Rules.getAvailableMoves
                Rules.getAvailableCells frozen 1 0%nat midgame NegInf PosInf
                0%Q (mkState [midgame] 0) s' utility move eq_refl Hrun).
  exact Hrun.
Defined.

Lemma minimize_without_empty_cell_witness :
  minimize Rules.canMove Rules.getAvailableMoves Rules.getAvailableCells
    ticking 3 0%nat NegInf PosInf 0%Q (mkState [crowded] 0)
  = (Ok (PosInf, None), tick (mkState [crowded] 0)).
Proof.
  apply (minimize_without_empty_cell Rules.canMove Rules.getAvailableMoves
           Rules.getAvailableCells ticking 2 0%nat crowded NegInf PosInf 0%Q
           (mkState [crowded] 0)); reflexivity.
Defined.

Lemma timeout_at_first_late_reading_witness :
  (ticks (mkState [midgame] 4) < ticks (tick (mkState [midgame] 4)))%nat /\
  expired ticking 0%Q (pred (ticks (tick (mkState [midgame] 4)))) = true.
Proof.
  destruct (timeout_at_first_late_reading Rules.canMove
              Rules.getAvailableMoves Rules.getAvailableCells ticking
              2 0%nat midgame NegInf PosInf 0%Q (mkState [midgame] 4)
              (tick (mkState [midgame] 4)) (Raise TimeoutError)
              eq_refl (or_introl eq_refl)) as [Hlate _].
  destruct (Hlate eq_refl) as (Hlt & He & _). split; assumption.
Defined.

Lemma getMove_stops_at_first_late_reading_witness :
  exists bestMove s',
    getMove Rules.canMove Rules.getAvailableMoves Rules.getAvailableCells
      ticking 4 0%nat (mkState [midgame] 0) = (Ok (Some bestMove), s') /\
    ticks s' = 5%nat.
Proof.
  apply (getMove_stops_at_first_late_reading Rules.canMove
           Rules.getAvailableMoves Rules.getAvailableCells ticking
           RulesFacts.getAvailableMoves_wf RulesFacts.getAvailableCells_spec
           RulesFacts.canMove_spec 0%nat midgame (mkState [midgame] 0)
           4%nat 4%nat).
  - apply wf_mk.
  - reflexivity.
  - simpl. lia.
  - reflexivity.
  - intros k Hk. simpl in Hk.
    destruct k as [|[|[|[|k]]]]; try lia; reflexivity.
  - simpl. lia.
Defined.

Lemma getMove_needs_the_clock_witness :
  exists s',
    getMove Rules.canMove Rules.getAvailableMoves Rules.getAvailableCells
      frozen 3 0%nat (mkState [midgame] 0) = (Ok None, s').
Proof.
  apply (getMove_needs_the_clock Rules.canMove Rules.getAvailableMoves
           Rules.getAvailableCells frozen RulesFacts.getAvailableMoves_wf
           RulesFacts.getAvailableCells_spec RulesFacts.canMove_spec
           0%nat midgame (mkState [midgame] 0)).
  - apply wf_mk.
  - reflexivity.
  - intros k. reflexivity.
Defined.

Lemma getMove_lets_other_errors_out_witness :
  getMove Rules.canMove Rules.getAvailableMoves Rules.getAvailableCells
    ticking 1 0%nat (mkState [wide] 0)
  = (Raise IndexError, tick (tick (mkState [wide] 0))).
Proof.
  apply (getMove_lets_other_errors_out Rules.canMove Rules.getAvailableMoves
           Rules.getAvailableCells ticking 0 0%nat wide (mkState [wide] 0)
           IndexError).
  - reflexivity.
  - vm_compute. reflexivity.
  - vm_compute. reflexivity.
  - reflexivity.
Defined.

Lemma evaluate_oversized_witness :
  evaluate Rules.getAvailableCells wide = Raise IndexError.
Proof.
  apply (evaluate_oversized Rules.getAvailableCells wide). simpl. lia.
Defined.

Lemma calcSmoothness_nonpositive_witness :
  exists smoothness, calcSmoothness midgame = Ok smoothness /\ smoothness <= 0.
Proof.
  destruct (calcSmoothness_nonpositive midgame
              (wf_mk _ _ _ _ _ _ _ _ _ _ _ _ _ _ _ _))
    as (smoothness & Hrun & Hle & _).
  exists smoothness. split; assumption.
Defined.

Lemma checkMaxTileInCorner_penalty_witness :
  exists score, checkMaxTileInCorner midgame = Ok score /\ score < 0.
Proof.
  destruct (checkMaxTileInCorner_penalty midgame 16)
    as (score & Hrun & Hpen & _).
  - apply wf_mk.
  - split.
    + exists (3%nat, 2%nat). split; [split; simpl; lia|reflexivity].
    + intros cell Hc.
      destruct (in_board_cases _ Hc) as (x & y & -> & Hx & Hy).
      destruct Hx as [->|[->|[->| ->]]]; destruct Hy as [->|[->|[->| ->]]];
        vm_compute; discriminate.
  - exists score. split; [exact Hrun|].
    apply Hpen. vm_compute. discriminate.
Defined.

Lemma tile_probabilities_unused_witness :
  min_tiles (fun child alpha beta =>
               maximize Rules.canMove Rules.getAvailableMoves
                 Rules.getAvailableCells frozen 0 child alpha beta 0%Q)
    0%nat (0%nat, 2%nat) possibleTileProbabilities NegInf PosInf PosInf
    (mkState [midgame] 0)
  = min_tiles (fun child alpha beta =>
                 maximize Rules.canMove Rules.getAvailableMoves
                   Rules.getAvailableCells frozen 0 child alpha beta 0%Q)
      0%nat (0%nat, 2%nat) [(2, 0.5%Q); (4, 0.5%Q)] NegInf PosInf PosInf
      (mkState [midgame] 0).
Proof.
  apply (tile_probabilities_unused
           (fun child alpha beta =>
              maximize Rules.canMove Rules.getAvailableMoves
                Rules.getAvailableCells frozen 0 child alpha beta 0%Q)
           0%nat (0%nat, 2%nat) possibleTileProbabilities
           [(2, 0.5%Q); (4, 0.5%Q)] NegInf PosInf PosInf
           (mkState [midgame] 0)).
  reflexivity.
Defined.

Lemma chance_takes_worst_case_witness :
  exists cells utility s',
    rankCells Rules.getAvailableCells 0%nat (mkState [midgame] 0)
      = (Ok cells, mkState [midgame] 0) /\
    chance Rules.canMove Rules.getAvailableMoves Rules.getAvailableCells
      frozen 1 0%nat NegInf PosInf 0%Q (mkState [midgame] 0)
    = (Ok (utility, None), s').
Proof.
  destruct (chance_takes_worst_case Rules.canMove Rules.getAvailableMoves
              Rules.getAvailableCells frozen RulesFacts.getAvailableMoves_wf
              RulesFacts.getAvailableCells_spec 0 0%nat midgame 0%Q
              (mkState [midgame] 0)
              (wf_mk _ _ _ _ _ _ _ _ _ _ _ _ _ _ _ _) eq_refl
              (fun k => eq_refl) eq_refl)
    as (cells & utility & s' & Hrank & Hrun & _).
  exists cells, utility, s'. split; assumption.
Defined.

Lemma getMove_answers_after_first_round_witness :
  exists move s',
    getMove Rules.canMove Rules.getAvailableMoves Rules.getAvailableCells
      ticking 4 0%nat (mkState [midgame] 0) = (Ok (Some (Some move)), s').
Proof.
  assert (exists bestMove s',
            getMove Rules.canMove Rules.getAvailableMoves
              Rules.getAvailableCells ticking 4 0%nat (mkState [midgame] 0)
            = (Ok (Some bestMove), s')) as (bestMove & s' & Hrun)
    by (vm_compute; eauto).
  destruct (getMove_answers_after_first_round Rules.canMove
              Rules.getAvailableMoves Rules.getAvailableCells ticking
              RulesFacts.getAvailableMoves_wf
              RulesFacts.getAvailableCells_spec RulesFacts.canMove_spec
              0%nat midgame (mkState [midgame] 0) s' 4 bestMove
              (wf_mk _ _ _ _ _ _ _ _ _ _ _ _ _ _ _ _) eq_refl eq_refl
              eq_refl eq_refl Hrun) as [move Hmove].
  exists move, s'. rewrite <- Hmove. exact Hrun.
Defined.
